(** * The WebSocket console client of [tempest/common/compute.py]

    A shallow embedding of the class [_WebSocket] (handshake, masked frame
    send, unmasked frame receive, teardown) together with a scripted model
    of the TCP socket it owns, and the properties of the framing engine.

    Conventions.
    - A Python [bytes] value is a [list byte]; indexing it yields an
      integer through [ord_func].
    - A Python [str] is a Rocq [string] holding its UTF-8 bytes, so that
      [.encode('utf8')] is [list_byte_of_string].
    - Python integers are [Z].
    - A method is a function from the [world] (the socket and the
      [_WebSocket] object) to an [outcome]: it returns, raises, or blocks
      for ever in a socket call. *)

From Stdlib Require Import List ZArith Lia Bool Arith String Ascii.
From Stdlib.Strings Require Import Byte.
From Stdlib Require DecimalString DecimalFacts DecimalPos DecimalN.
Import ListNotations.

Local Open Scope Z_scope.

(** ** Bytes and integers *)

Definition bytes := list byte.

(** [ord_func] of the module: [ord] on Python 2, [int] on Python 3; in both
    cases the numeric value 0..255 of one element of a byte string. *)
Definition ord_func (b : byte) : Z := Z.of_N (Byte.to_N b).

(** Python's [len]. *)
Definition len {A : Type} (l : list A) : Z := Z.of_nat (List.length l).

(** Python's exceptions, as far as this class can raise them. *)
Inductive exn : Type :=
| AttributeError   (* method call through [self._socket = None] *)
| IndexError       (* [header[1]] on a one-byte header *)
| ValueError       (* [recv] with a negative buffer size *)
| struct_error.    (* [struct.pack] with a value outside 0..255 *)

(** [struct.pack('!%iB' % len(l), *l)]: one unsigned byte per integer; any
    integer outside 0..255 makes the call raise [struct.error]. *)
Definition pack_B1 (z : Z) : option byte :=
  if z <? 0 then None else Byte.of_N (Z.to_N z).

Fixpoint struct_pack_B (l : list Z) : option bytes :=
  match l with
  | [] => Some []
  | z :: l' =>
      match pack_B1 z, struct_pack_B l' with
      | Some b, Some bs => Some (b :: bs)
      | _, _ => None
      end
  end.

(** ** The socket: a scripted transport

    [pending] is what the peer will deliver, one list element per
    delivery; an empty delivery is the peer closing the connection (a
    read of zero bytes). [calls] is the log of the completed calls made
    on the socket, oldest first. *)

Inductive call : Type :=
| Sendall (data : bytes)
| Recv (bufsize : Z) (data : bytes)
| Shutdown (how : Z)
| Close.

Record socket : Type := mkSocket {
  pending : list bytes;
  calls : list call
}.

(** The constants of Python's [socket] module for [shutdown]. *)
Definition SHUT_RD : Z := 0.
Definition SHUT_WR : Z := 1.
Definition SHUT_RDWR : Z := 2.

(** The reference held in [self._socket]: the one socket of the client. *)
Inductive sockref : Type := client_socket.

(** The attributes of a [_WebSocket] object. [response] is the empty byte
    string until [_upgrade] assigns it. *)
Record _WebSocket : Type := mkWebSocket {
  _socket : option sockref;
  response : bytes
}.

Record world : Type := mkWorld {
  sock : socket;
  self : _WebSocket
}.

Inductive outcome (A : Type) : Type :=
| Returns (a : A) (w : world)
| Raises (e : exn) (w : world)
| Blocks (w : world).
Arguments Returns {A} a w.
Arguments Raises {A} e w.
Arguments Blocks {A} w.

Definition world_of {A : Type} (o : outcome A) : world :=
  match o with
  | Returns _ w => w
  | Raises _ w => w
  | Blocks w => w
  end.

Definition M (A : Type) : Type := world -> outcome A.

Definition ret {A : Type} (a : A) : M A := fun w => Returns a w.

Definition bind {A B : Type} (c : M A) (k : A -> M B) : M B :=
  fun w =>
    match c w with
    | Returns a w' => k a w'
    | Raises e w' => Raises e w'
    | Blocks w' => Blocks w'
    end.

Notation "x <- c ;; k" := (bind c (fun x => k))
  (at level 61, c at next level, right associativity).
Notation "c ;;; k" := (bind c (fun _ => k))
  (at level 61, right associativity).

Definition raise {A : Type} (e : exn) : M A := fun w => Raises e w.

Definition log (c : call) (s : socket) : socket :=
  {| pending := pending s; calls := calls s ++ [c] |}.

(** What is left of a delivery after a read goes back to the front. *)
Definition pushback (c : bytes) (rest : list bytes) : list bytes :=
  match c with
  | [] => rest
  | _ :: _ => c :: rest
  end.

(** [socket.recv(bufsize)]: at most [bufsize] bytes of the next delivery;
    blocks when the peer delivers nothing more. *)
Definition socket_recv (bufsize : Z) : M bytes := fun w =>
  if bufsize <? 0 then Raises ValueError w
  else
    match pending (sock w) with
    | [] => Blocks w
    | c :: rest =>
        let data := firstn (Z.to_nat bufsize) c in
        Returns data
          {| sock := {| pending := pushback (skipn (Z.to_nat bufsize) c) rest;
                        calls := calls (sock w) ++ [Recv bufsize data] |};
             self := self w |}
    end.

(** [socket.sendall(data)]: all of [data] is written. *)
Definition socket_sendall (data : bytes) : M unit := fun w =>
  Returns tt {| sock := log (Sendall data) (sock w); self := self w |}.

Definition socket_shutdown (how : Z) : M unit := fun w =>
  Returns tt {| sock := log (Shutdown how) (sock w); self := self w |}.

Definition socket_close : M unit := fun w =>
  Returns tt {| sock := log Close (sock w); self := self w |}.

(** A method call [self._socket.m(...)]: [AttributeError] when the
    reference is [None]. *)
Definition via_socket {A : Type} (m : M A) : M A := fun w =>
  match _socket (self w) with
  | Some client_socket => m w
  | None => Raises AttributeError w
  end.

Definition set_socket (r : option sockref) : M unit := fun w =>
  Returns tt {| sock := sock w;
                self := {| _socket := r; response := response (self w) |} |}.

Definition set_response (r : bytes) : M unit := fun w =>
  Returns tt {| sock := sock w;
                self := {| _socket := _socket (self w); response := r |} |}.

(** ** [send_frame] *)

Definition mask : list Z := [7; 2; 1; 9].

(** The list [frame_bytes] built by the four [append] steps. *)
Definition frame_bytes (data : bytes) : list Z :=
  [130; Z.lor (len data) 128]
  ++ map (fun i => nth i mask 0) (seq 0 (List.length mask))
  ++ map (fun i => Z.lxor (ord_func (nth i data x00)) (nth (i mod 4)%nat mask 0))
         (seq 0 (List.length data)).

Definition send_frame (data : bytes) : M unit :=
  match struct_pack_B (frame_bytes data) with
  | None => raise struct_error
  | Some packed => via_socket (socket_sendall packed)
  end.

(** ** [receive_frame] *)

(** Python's [header[i]] on a byte string. *)
Definition getitem (l : bytes) (i : nat) : option byte := nth_error l i.

(** The [while True] loop; [fuel] bounds the number of iterations and
    [None] is "not finished within [fuel] iterations". *)
Fixpoint receive_frame_loop (fuel : nat) (w : world)
  : option (outcome (option bytes)) :=
  match fuel with
  | O => None
  | S fuel' =>
      match via_socket (socket_recv 2) w with
      | Returns header w1 =>
          if len header =? 0 then Some (Returns None w1)
          else
            match getitem header 1 with
            | None => Some (Raises IndexError w1)
            | Some h1 =>
                if Z.land (ord_func h1) 127 >? 0 then
                  Some ((data <- via_socket
                                   (socket_recv (Z.land (ord_func h1) 127)) ;;
                         ret (Some data)) w1)
                else receive_frame_loop fuel' w1
            end
      | Raises e w1 => Some (Raises e w1)
      | Blocks w1 => Some (Blocks w1)
      end
  end.

(** Every read that returns takes something off [weight]. *)
Definition weight (ps : list bytes) : nat :=
  fold_right (fun c n => (S (List.length c) + n)%nat) O ps.

(** [receive_frame]: the loop with as many iterations as the pending
    deliveries can feed (see [receive_frame_loop_total]); a loop that
    would not finish never returns. *)
Definition receive_frame : M (option bytes) := fun w =>
  match receive_frame_loop (S (weight (pending (sock w)))) w with
  | Some o => o
  | None => Blocks w
  end.

(** ** [close] *)

Definition close : M unit := fun w =>
  match _socket (self w) with
  | Some client_socket =>
      (socket_shutdown 1 ;;; socket_close ;;; set_socket None) w
  | None => Returns tt w
  end.

(** The directions a [shutdown(how)] closes. *)
Definition shuts_read (how : Z) : bool :=
  (how =? SHUT_RD) || (how =? SHUT_RDWR).
Definition shuts_write (how : Z) : bool :=
  (how =? SHUT_WR) || (how =? SHUT_RDWR).

Definition shutdown_of (p : Z -> bool) (c : call) : bool :=
  match c with
  | Shutdown how => p how
  | _ => false
  end.

(** A log signals shutdown of both directions when some [shutdown] call
    covers reading and some [shutdown] call covers writing. *)
Definition shuts_both_directions (cs : list call) : bool :=
  existsb (shutdown_of shuts_read) cs && existsb (shutdown_of shuts_write) cs.

(** ** [_upgrade] and the constructor *)

(** The fields of the parsed URL that the class reads. The socket handed
    to the constructor is connected to [(hostname, port)], so both are
    present: a host name and a port number. *)
Record url_t : Type := mkUrl {
  hostname : string;
  port : N;
  query : string
}.

Definition CRLF : string := String "013" (String "010" EmptyString).

(** [str] of a non-negative integer, as ['%s'] formats it. *)
Definition str_int (n : N) : string :=
  DecimalString.NilZero.string_of_uint (N.to_uint n).

Local Open Scope string_scope.

(** The request text, built by the same sequence of [+=]. *)
Definition reqdata (url : url_t) : string :=
  let r := "GET /websockify HTTP/1.1" ++ CRLF in
  let r := r ++ ("Host: " ++ hostname url ++ ":" ++ str_int (port url) ++ CRLF) in
  let r := r ++ ("Upgrade: websocket" ++ CRLF ++ "Connection: Upgrade" ++ CRLF) in
  let r := r ++ ("Cookie: " ++ query url ++ CRLF) in
  let r := r ++ ("Sec-WebSocket-Key: x3JJHMbDL1EzLkh9GBhXDw==" ++ CRLF) in
  let r := r ++ ("Sec-WebSocket-Version: 13" ++ CRLF) in
  r ++ ("Sec-WebSocket-Protocol: binary" ++ CRLF ++ CRLF).

(** The request as the interface description lays it out: the request
    line and seven header lines, each followed by CRLF, then an empty
    line. *)
Definition request_lines (host : string) (p : N) (q : string) : list string :=
  [ "GET /websockify HTTP/1.1";
    "Host: " ++ host ++ ":" ++ str_int p;
    "Upgrade: websocket";
    "Connection: Upgrade";
    "Cookie: " ++ q;
    "Sec-WebSocket-Key: x3JJHMbDL1EzLkh9GBhXDw==";
    "Sec-WebSocket-Version: 13";
    "Sec-WebSocket-Protocol: binary" ].

Definition literal_request (host : string) (p : N) (q : string) : string :=
  fold_right (fun line acc => line ++ CRLF ++ acc) CRLF (request_lines host p q).

Local Close Scope string_scope.

(** [str.encode('utf8')]. *)
Definition encode_utf8 (s : string) : bytes := list_byte_of_string s.

(** The header terminator [b'\r\n\r\n']. *)
Definition CRLFCRLF : bytes := [x0d; x0a; x0d; x0a].

(** [bytes.find(sub)]: the lowest index at which [sub] starts, or -1. *)
Fixpoint starts_with (sub l : bytes) : bool :=
  match sub, l with
  | [], _ => true
  | _ :: _, [] => false
  | a :: sub', b :: l' => Byte.eqb a b && starts_with sub' l'
  end.

Fixpoint find_from (i : Z) (l sub : bytes) : Z :=
  if starts_with sub l then i
  else
    match l with
    | [] => -1
    | _ :: l' => find_from (i + 1) l' sub
    end.

Definition find (l sub : bytes) : Z := find_from 0 l sub.

(** The [while] loop of [_upgrade]; [data] is the local variable, the
    buffer is the attribute [response]. *)
Fixpoint _upgrade_loop (fuel : nat) (data : bytes) (w : world)
  : option (outcome unit) :=
  match fuel with
  | O => None
  | S fuel' =>
      if (len data >? 0) && (find (response (self w)) CRLFCRLF <? 0) then
        match via_socket (socket_recv 4096) w with
        | Returns data' w1 =>
            match set_response (response (self w1) ++ data') w1 with
            | Returns _ w2 => _upgrade_loop fuel' data' w2
            | Raises e w2 => Some (Raises e w2)
            | Blocks w2 => Some (Blocks w2)
            end
        | Raises e w1 => Some (Raises e w1)
        | Blocks w1 => Some (Blocks w1)
        end
      else Some (Returns tt w)
  end.

(** The loop with as many iterations as the pending deliveries can feed
    (see [_upgrade_loop_total]). *)
Definition _upgrade_while (data : bytes) : M unit := fun w =>
  match _upgrade_loop (S (weight (pending (sock w)))) data w with
  | Some o => o
  | None => Blocks w
  end.

Definition _upgrade (url : url_t) : M unit :=
  via_socket (socket_sendall (encode_utf8 (reqdata url))) ;;;
  data <- via_socket (socket_recv 4096) ;;
  set_response data ;;;
  _upgrade_while data.

(** [_WebSocket(client_socket, url)]: the object holds the socket, then
    upgrades the connection. *)
Definition __init__ (s : socket) (url : url_t) : outcome unit :=
  _upgrade url
    {| sock := s; self := {| _socket := Some client_socket; response := [] |} |}.

(** ** Shapes of the peer's deliveries used in the statements *)

(** A frame header announcing an empty payload. *)
Definition empty_frame_header (h : bytes) : bool :=
  match h with
  | [_; h1] => Z.land (ord_func h1) 127 =? 0
  | _ => false
  end.

(** [sub] occurs in [l]. *)
Definition occurs (sub l : bytes) : Prop :=
  exists pre post, l = pre ++ sub ++ post.

(** [sub] occurs in [l], and only as its last bytes. *)
Definition occurs_only_at_end (sub l : bytes) : Prop :=
  occurs sub l /\ forall pre post, l = pre ++ sub ++ post -> post = [].

(** An open client over a socket. *)
Definition open_on (s : socket) (r : bytes) : world :=
  {| sock := s; self := {| _socket := Some client_socket; response := r |} |}.

(** The calls that are reads. *)
Definition is_recv (c : call) : bool :=
  match c with
  | Recv _ _ => true
  | _ => false
  end.

(** A delivery that one [recv(4096)] returns whole and that is not the
    peer's close. *)
Definition partial_read (c : bytes) : bool :=
  (0 <? len c) && (len c <=? 4096).

(** [n] calls of a method in a row. *)
Fixpoint times (n : nat) (m : M unit) : M unit :=
  match n with
  | O => ret tt
  | S n' => m ;;; times n' m
  end.

(** ** Sample inputs *)

Definition console_url : url_t := mkUrl "10.0.0.5" 6083 "token=abc".

(** [HTTP/1.1 101 Switching Protocols] and the terminator, cut so that the
    terminator straddles three deliveries. *)
Definition switching_protocols_chunks : list bytes :=
  [ list_byte_of_string "HTTP/1.1 101 Switching Protocols" ++ [x0d];
    [x0a; x0d];
    [x0a] ].

(** A response cut short before the end of its terminator. *)
Definition truncated_chunks : list bytes :=
  [ list_byte_of_string "HTTP/1.1 101" ++ [x0d; x0a; x0d] ].

(** A refusal, with its terminator. *)
Definition not_found_chunks : list bytes :=
  [ list_byte_of_string "HTTP/1.1 404 Not Found"; [x0d; x0a; x0d; x0a] ].

(** A delivery that carries at least one byte. *)
Definition delivers_bytes (c : bytes) : bool := 0 <? len c.

(** ** [shelve_server] over a scripted compute service

    The function talks to the compute service through [servers_client] and
    through [waiters.wait_for_server_status]; both are outside this module
    and are taken as requests made to a service, logged with the arguments
    of the call sites. A request either completes or raises. *)

Inductive request : Type :=
| client_shelve_server (server_id : string)
| client_shelve_offload_server (server_id : string)
| wait_for_server_status (server_id status : string) (extra_timeout : option Z).

(** [faults] gives, for each coming request in turn, the exception it
    raises, if any; past its end every request completes. [requests] is the
    log of the requests made, oldest first, a failed one included. *)
Record service : Type := mkService {
  faults : list (option string);
  requests : list request
}.

Inductive reply (A : Type) : Type :=
| Done (a : A) (s : service)
| Failed (e : string) (s : service).
Arguments Done {A} a s.
Arguments Failed {A} e s.

Definition service_of {A : Type} (r : reply A) : service :=
  match r with
  | Done _ s => s
  | Failed _ s => s
  end.

Definition perform (q : request) (s : service) : reply unit :=
  match faults s with
  | Some e :: fs => Failed e {| faults := fs; requests := requests s ++ [q] |}
  | None :: fs => Done tt {| faults := fs; requests := requests s ++ [q] |}
  | [] => Done tt {| faults := []; requests := requests s ++ [q] |}
  end.

(** Sequencing: an exception ends the sequence. *)
Definition and_then {A B : Type} (c : service -> reply A)
           (k : A -> service -> reply B) : service -> reply B :=
  fun s =>
    match c s with
    | Done a s' => k a s'
    | Failed e s' => Failed e s'
    end.

(** [shelve_server(servers_client, server_id, force_shelve_offload)];
    [shelved_offload_time] is [CONF.compute.shelved_offload_time]. *)
Definition shelve_server (shelved_offload_time : Z) (server_id : string)
           (force_shelve_offload : bool) : service -> reply unit :=
  and_then (perform (client_shelve_server server_id)) (fun _ =>
  let offload_time := shelved_offload_time in
  if offload_time >=? 0 then
    perform (wait_for_server_status server_id "SHELVED_OFFLOADED"
               (Some offload_time))
  else
    and_then (perform (wait_for_server_status server_id "SHELVED" None))
      (fun _ =>
         if force_shelve_offload then
           and_then (perform (client_shelve_offload_server server_id))
             (fun _ =>
                perform (wait_for_server_status server_id "SHELVED_OFFLOADED"
                           None))
         else fun s => Done tt s)).

Definition is_shelve_offload (q : request) : bool :=
  match q with
  | client_shelve_offload_server _ => true
  | _ => false
  end.

(** The [k]-th coming request does not raise. *)
Definition no_fault (k : nat) (s : service) : bool :=
  match nth_error (faults s) k with
  | Some (Some _) => false
  | _ => true
  end.

(** The digits of a decimal numeral, most significant first. *)
Fixpoint uint_digits (d : Decimal.uint) : list N :=
  match d with
  | Decimal.Nil => []
  | Decimal.D0 d' => 0%N :: uint_digits d'
  | Decimal.D1 d' => 1%N :: uint_digits d'
  | Decimal.D2 d' => 2%N :: uint_digits d'
  | Decimal.D3 d' => 3%N :: uint_digits d'
  | Decimal.D4 d' => 4%N :: uint_digits d'
  | Decimal.D5 d' => 5%N :: uint_digits d'
  | Decimal.D6 d' => 6%N :: uint_digits d'
  | Decimal.D7 d' => 7%N :: uint_digits d'
  | Decimal.D8 d' => 8%N :: uint_digits d'
  | Decimal.D9 d' => 9%N :: uint_digits d'
  end.

(** * Properties *)

(** ** Bytes, packing and bit operations *)

Lemma ord_func_range (b : byte) : 0 <= ord_func b < 256.
Proof.
  unfold ord_func. pose proof (Byte.to_N_bounded b). lia.
Qed.

Lemma pack_B1_ord (z : Z) :
  0 <= z < 256 -> exists b, pack_B1 z = Some b /\ ord_func b = z.
Proof.
  intros Hz. unfold pack_B1.
  destruct (Z.ltb_spec z 0) as [Hneg | _]; [lia |].
  destruct (Byte.of_N (Z.to_N z)) as [b |] eqn:Hb.
  - exists b. split; [reflexivity |].
    apply Byte.to_of_N in Hb. unfold ord_func. rewrite Hb. lia.
  - apply Byte.of_N_None_iff in Hb. lia.
Qed.

Lemma struct_pack_B_ord (l : list Z) :
  Forall (fun z => 0 <= z < 256) l ->
  exists bs, struct_pack_B l = Some bs /\ map ord_func bs = l.
Proof.
  induction 1 as [| z l Hz _ [bs [Hbs Hmap]]]; simpl.
  - exists []. split; reflexivity.
  - destruct (pack_B1_ord z Hz) as [b [Hb Hord]].
    rewrite Hb, Hbs. exists (b :: bs). simpl. now rewrite Hord, Hmap.
Qed.

(** A bitwise combination of two 8-bit values is an 8-bit value. *)
Lemma below_256_log2 (a : Z) : 0 <= a -> (a < 256 <-> Z.log2 a < 8).
Proof.
  intros Ha. destruct (Z.eq_dec a 0) as [-> | Hnz].
  - simpl. lia.
  - change 256 with (2 ^ 8). apply Z.log2_lt_pow2. lia.
Qed.

Lemma lxor_byte (a m : Z) :
  0 <= a < 256 -> 0 <= m < 256 -> 0 <= Z.lxor a m < 256.
Proof.
  intros [Ha0 Ha] [Hm0 Hm].
  assert (H0 : 0 <= Z.lxor a m) by (apply Z.lxor_nonneg; tauto).
  split; [exact H0 |].
  apply below_256_log2; [exact H0 |].
  apply below_256_log2 in Ha; [| exact Ha0].
  apply below_256_log2 in Hm; [| exact Hm0].
  pose proof (Z.log2_lxor a m Ha0 Hm0). lia.
Qed.

Lemma lor_byte (a m : Z) :
  0 <= a < 256 -> 0 <= m < 256 -> 0 <= Z.lor a m < 256.
Proof.
  intros [Ha0 Ha] [Hm0 Hm].
  assert (H0 : 0 <= Z.lor a m) by (apply Z.lor_nonneg; tauto).
  split; [exact H0 |].
  apply below_256_log2; [exact H0 |].
  apply below_256_log2 in Ha; [| exact Ha0].
  apply below_256_log2 in Hm; [| exact Hm0].
  rewrite (Z.log2_lor a m Ha0 Hm0). lia.
Qed.

Lemma mask_entry_byte (i : nat) : 0 <= nth i mask 0 < 256.
Proof.
  do 4 (destruct i as [| i]; [simpl; lia |]). destruct i; simpl; lia.
Qed.

(** ** [send_frame] *)

Lemma frame_bytes_shape (data : bytes) :
  frame_bytes data =
  130 :: Z.lor (len data) 128 :: 7 :: 2 :: 1 :: 9 ::
  map (fun i => Z.lxor (ord_func (nth i data x00)) (nth (i mod 4)%nat mask 0))
      (seq 0 (List.length data)).
Proof. reflexivity. Qed.

Lemma frame_bytes_packable (data : bytes) :
  len data <= 125 -> Forall (fun z => 0 <= z < 256) (frame_bytes data).
Proof.
  intros Hlen. rewrite frame_bytes_shape.
  repeat (apply Forall_cons; [try lia |]).
  - apply lor_byte; unfold len in *; lia.
  - apply Forall_forall. intros z Hz. apply in_map_iff in Hz.
    destruct Hz as [i [<- _]].
    apply lxor_byte; [apply ord_func_range | apply mask_entry_byte].
Qed.

(** C1. For every payload P of at most 125 bytes, [send_frame P] on an open
    client returns after a single [sendall] of a frame of exactly
    2 + 4 + len(P) bytes: byte 0 is 0x82, byte 1 is 0x80 | len(P), bytes
    2..5 are the mask 7, 2, 1, 9, and byte 6+i is P[i] XOR mask[i mod 4]
    for every index i of P. *)
Theorem send_frame_layout (P : bytes) (s : socket) (r : bytes) :
  0 <= len P <= 125 ->
  exists frame : bytes,
    send_frame P (open_on s r)
    = Returns tt (open_on (mkSocket (pending s) (calls s ++ [Sendall frame])) r)
    /\ len frame = 2 + 4 + len P
    /\ option_map ord_func (nth_error frame 0) = Some 0x82
    /\ option_map ord_func (nth_error frame 1) = Some (Z.lor 0x80 (len P))
    /\ map ord_func (firstn 4 (skipn 2 frame)) = [7; 2; 1; 9]
    /\ forall i : nat, (i < List.length P)%nat ->
         option_map ord_func (nth_error frame (6 + i))
         = option_map (fun p => Z.lxor (ord_func p) (nth (i mod 4) [7; 2; 1; 9] 0))
                      (nth_error P i).
Proof.
  intros [_ Hlen].
  destruct (struct_pack_B_ord _ (frame_bytes_packable P Hlen)) as [frame [Hpack Hord]].
  exists frame. split.
  - unfold send_frame. rewrite Hpack. reflexivity.
  - rewrite frame_bytes_shape in Hord.
    assert (Hn : forall k, option_map ord_func (nth_error frame k)
                           = nth_error (map ord_func frame) k)
      by (intros k; symmetry; apply nth_error_map).
    rewrite !Hn. rewrite <- firstn_map, <- skipn_map. rewrite Hord.
    repeat split.
    + unfold len. rewrite <- (length_map ord_func frame), Hord.
      cbn [List.length]. rewrite length_map, length_seq. lia.
    + simpl. now rewrite Z.lor_comm.
    + intros i Hi. rewrite Hn, Hord.
      change (nth_error (_ :: _ :: _ :: _ :: _ :: _ :: ?l) (6 + i))
        with (nth_error l i).
      rewrite nth_error_map, nth_error_seq.
      destruct (Nat.ltb_spec i (List.length P)) as [_ | Hge]; [| lia].
      simpl. destruct (nth_error P i) as [p |] eqn:Hp.
      * simpl. now rewrite (nth_error_nth _ _ _ Hp).
      * apply nth_error_None in Hp. lia.
Qed.

Lemma send_frame_layout_witness :
  exists frame : bytes,
    send_frame [x68; x65; x6c; x6c; x6f] (open_on (mkSocket [] []) [])
    = Returns tt (open_on (mkSocket [] ([] ++ [Sendall frame])) [])
    /\ len frame = 2 + 4 + 5
    /\ option_map ord_func (nth_error frame 0) = Some 0x82
    /\ option_map ord_func (nth_error frame 1) = Some (Z.lor 0x80 5)
    /\ map ord_func (firstn 4 (skipn 2 frame)) = [7; 2; 1; 9]
    /\ forall i : nat, (i < 5)%nat ->
         option_map ord_func (nth_error frame (6 + i))
         = option_map (fun p => Z.lxor (ord_func p) (nth (i mod 4) [7; 2; 1; 9] 0))
                      (nth_error [x68; x65; x6c; x6c; x6f] i).
Proof.
  apply (send_frame_layout [x68; x65; x6c; x6c; x6f] (mkSocket [] []) []).
  unfold len; simpl; lia.
Defined.

Example send_frame_hello :
  send_frame [x68; x65; x6c; x6c; x6f] (open_on (mkSocket [] []) [])
  = Returns tt
      (open_on
         (mkSocket []
            [Sendall [x82; x85; x07; x02; x01; x09; x6f; x67; x6d; x65; x68]])
         []).
Proof. reflexivity. Qed.

(** Outside the supported range the frame cannot be packed. *)
Example send_frame_256 :
  send_frame (repeat x00 256) (open_on (mkSocket [] []) [])
  = Raises struct_error (open_on (mkSocket [] []) []).
Proof. vm_compute. reflexivity. Qed.

(** ** Reads on the scripted socket *)

Lemma pushback_concat (c : bytes) (rest : list bytes) :
  List.concat (pushback c rest) = c ++ List.concat rest.
Proof. destruct c; reflexivity. Qed.

Lemma pushback_weight (n : nat) (c : bytes) (rest : list bytes) :
  (0 < n)%nat ->
  (weight (pushback (skipn n c) rest) < weight (c :: rest))%nat.
Proof.
  intros Hn. destruct (skipn n c) as [| b t] eqn:Hs.
  - simpl. lia.
  - assert (Hl : List.length (skipn n c) = S (List.length t))
      by (rewrite Hs; reflexivity).
    rewrite length_skipn in Hl. cbn [pushback].
    change (weight ((b :: t) :: rest)) with (S (S (List.length t)) + weight rest)%nat.
    change (weight (c :: rest)) with (S (List.length c) + weight rest)%nat.
    lia.
Qed.

Lemma recv_open (n : Z) (c : bytes) (rest : list bytes) (cs : list call)
      (r : bytes) :
  0 <= n ->
  via_socket (socket_recv n) (open_on (mkSocket (c :: rest) cs) r)
  = Returns (firstn (Z.to_nat n) c)
      (open_on (mkSocket (pushback (skipn (Z.to_nat n) c) rest)
                         (cs ++ [Recv n (firstn (Z.to_nat n) c)])) r).
Proof.
  intros Hn. unfold via_socket, socket_recv, open_on. cbn.
  destruct (Z.ltb_spec n 0); [lia | reflexivity].
Qed.

(** A delivery that fits the buffer is read whole. *)
Lemma recv_open_whole (n : Z) (c : bytes) (rest : list bytes)
      (cs : list call) (r : bytes) :
  len c <= n ->
  via_socket (socket_recv n) (open_on (mkSocket (c :: rest) cs) r)
  = Returns c (open_on (mkSocket rest (cs ++ [Recv n c])) r).
Proof.
  intros Hn. unfold len in Hn. rewrite recv_open by lia.
  rewrite firstn_all2, skipn_all2 by lia. reflexivity.
Qed.

(** The three ways a read through [self._socket] can end. *)
Lemma recv_cases (n : Z) (w : world) :
  0 <= n ->
  match via_socket (socket_recv n) w with
  | Returns d w1 =>
      exists c rest,
        pending (sock w) = c :: rest /\
        d = firstn (Z.to_nat n) c /\
        pending (sock w1) = pushback (skipn (Z.to_nat n) c) rest /\
        calls (sock w1) = calls (sock w) ++ [Recv n d] /\
        self w1 = self w
  | Raises e w1 => e = AttributeError /\ w1 = w
  | Blocks w1 => w1 = w /\ pending (sock w) = []
  end.
Proof.
  intros Hn. unfold via_socket, socket_recv.
  destruct (_socket (self w)) as [[] |]; [| now split].
  destruct (Z.ltb_spec n 0); [lia |].
  destruct (pending (sock w)) as [| c rest]; [now split |].
  exists c, rest. cbn. repeat split.
Qed.

Lemma recv_weight (n : Z) (w w1 : world) (d : bytes) :
  0 < n ->
  via_socket (socket_recv n) w = Returns d w1 ->
  (weight (pending (sock w1)) < weight (pending (sock w)))%nat.
Proof.
  intros Hn Hr. pose proof (recv_cases n w ltac:(lia)) as Hc.
  rewrite Hr in Hc. destruct Hc as [c [rest [Hp [_ [Hp1 _]]]]].
  rewrite Hp, Hp1. apply pushback_weight. lia.
Qed.

(** ** [receive_frame]: the fuel is enough *)

Lemma receive_frame_loop_mono (n : nat) :
  forall (m : nat) (w : world) (o : outcome (option bytes)),
    receive_frame_loop n w = Some o -> (n <= m)%nat ->
    receive_frame_loop m w = Some o.
Proof.
  induction n as [| n IH]; intros m w o Hrun Hle; [discriminate |].
  destruct m as [| m]; [lia |].
  cbn [receive_frame_loop] in *.
  destruct (via_socket (socket_recv 2) w) as [header w1 | e w1 | w1];
    try exact Hrun.
  destruct (len header =? 0); [exact Hrun |].
  destruct (getitem header 1) as [h1 |]; [| exact Hrun].
  destruct (Z.land (ord_func h1) 127 >? 0); [exact Hrun |].
  apply IH; [exact Hrun | lia].
Qed.

Lemma receive_frame_loop_total (n : nat) :
  forall w : world,
    (weight (pending (sock w)) < n)%nat -> receive_frame_loop n w <> None.
Proof.
  induction n as [| n IH]; intros w Hw; [lia |].
  cbn [receive_frame_loop].
  destruct (via_socket (socket_recv 2) w) as [header w1 | e w1 | w1] eqn:Hr;
    try discriminate.
  destruct (len header =? 0); [discriminate |].
  destruct (getitem header 1) as [h1 |]; [| discriminate].
  destruct (Z.land (ord_func h1) 127 >? 0); [discriminate |].
  apply IH. apply recv_weight in Hr; lia.
Qed.

Lemma receive_frame_unfold (n : nat) (w : world) (o : outcome (option bytes)) :
  receive_frame_loop n w = Some o -> receive_frame w = o.
Proof.
  intros Hrun. unfold receive_frame.
  set (k := S (weight (pending (sock w)))).
  destruct (receive_frame_loop k w) as [o' |] eqn:Hk.
  - apply (receive_frame_loop_mono _ (Nat.max n k)) in Hrun; [| lia].
    apply (receive_frame_loop_mono _ (Nat.max n k)) in Hk; [| lia].
    congruence.
  - exfalso. apply (receive_frame_loop_total k w); [unfold k; lia | exact Hk].
Qed.

(** ** [receive_frame]: empty frames, peer close, short headers *)

Lemma empty_frame_header_inv (h : bytes) :
  empty_frame_header h = true ->
  exists h0 h1, h = [h0; h1] /\ Z.land (ord_func h1) 127 = 0.
Proof.
  destruct h as [| h0 [| h1 [| ? ?]]]; try discriminate.
  cbn [empty_frame_header]. intros H. exists h0, h1.
  split; [reflexivity | now apply Z.eqb_eq].
Qed.

(** Skipping the headers [zs] costs one iteration each. *)
Lemma receive_frame_loop_skip (zs : list bytes) :
  forallb empty_frame_header zs = true ->
  forall (n : nat) (ps : list bytes) (cs : list call) (r : bytes)
         (o : outcome (option bytes)),
    receive_frame_loop n (open_on (mkSocket ps (cs ++ map (Recv 2) zs)) r) = Some o ->
    receive_frame_loop (List.length zs + n) (open_on (mkSocket (zs ++ ps) cs) r)
    = Some o.
Proof.
  induction zs as [| z zs IH]; intros Hzs n ps cs r o Hrun.
  - cbn in *. now rewrite app_nil_r in Hrun.
  - cbn [forallb] in Hzs. apply andb_prop in Hzs as [Hz Hzs].
    apply empty_frame_header_inv in Hz as [h0 [h1 [-> Hzero]]].
    cbn [List.length Nat.add app receive_frame_loop].
    rewrite recv_open_whole by (cbn; lia).
    cbn [len List.length getitem nth_error].
    change (Z.of_nat 2 =? 0) with false. cbv iota.
    rewrite Hzero. change (0 >? 0) with false. cbv iota.
    apply (IH Hzs). cbn [map] in Hrun.
    now rewrite <- app_assoc.
Qed.

Lemma receive_frame_loop_eof (rest : list bytes) (cs : list call) (r : bytes) :
  receive_frame_loop 1 (open_on (mkSocket ([] :: rest) cs) r)
  = Some (Returns None (open_on (mkSocket rest (cs ++ [Recv 2 []])) r)).
Proof.
  cbn [receive_frame_loop]. rewrite recv_open_whole by (cbn; lia).
  reflexivity.
Qed.

Lemma receive_frame_loop_short (b : byte) (rest : list bytes) (cs : list call)
      (r : bytes) :
  receive_frame_loop 1 (open_on (mkSocket ([b] :: rest) cs) r)
  = Some (Raises IndexError (open_on (mkSocket rest (cs ++ [Recv 2 [b]])) r)).
Proof.
  cbn [receive_frame_loop]. rewrite recv_open_whole by (cbn; lia).
  reflexivity.
Qed.

(** A header announcing [L > 0] bytes is followed by one read of [L]. *)
Lemma receive_frame_loop_payload (h0 h1 : byte) (c : bytes)
      (rest : list bytes) (cs : list call) (r : bytes) (L : Z) :
  Z.land (ord_func h1) 127 = L -> 0 < L ->
  receive_frame_loop 1 (open_on (mkSocket ([h0; h1] :: c :: rest) cs) r)
  = Some (Returns (Some (firstn (Z.to_nat L) c))
            (open_on (mkSocket (pushback (skipn (Z.to_nat L) c) rest)
                       (cs ++ [Recv 2 [h0; h1];
                               Recv L (firstn (Z.to_nat L) c)])) r)).
Proof.
  intros HL Hpos. cbn [receive_frame_loop].
  rewrite recv_open_whole by (cbn; lia).
  cbn [len List.length getitem nth_error].
  change (Z.of_nat 2 =? 0) with false. cbv iota.
  rewrite HL. destruct (Z.gtb_spec L 0) as [_ | Hle]; [| lia].
  unfold bind. rewrite recv_open by lia. unfold ret.
  now rewrite <- app_assoc.
Qed.

Lemma receive_frame_after_skip (zs ps : list bytes) (cs : list call)
      (r : bytes) (o : outcome (option bytes)) :
  forallb empty_frame_header zs = true ->
  receive_frame_loop 1 (open_on (mkSocket ps (cs ++ map (Recv 2) zs)) r) = Some o ->
  receive_frame (open_on (mkSocket (zs ++ ps) cs) r) = o.
Proof.
  intros Hzs Hlast.
  apply (receive_frame_unfold (List.length zs + 1)).
  now apply receive_frame_loop_skip.
Qed.

(** C4. Whenever a header read inside [receive_frame] returns zero bytes
    (the first header read, or the one after any number of skipped empty
    frames), [receive_frame] returns the sentinel [None]: it neither raises
    nor returns a byte string. *)
Theorem receive_frame_peer_closed (zs rest : list bytes) (cs : list call)
        (r : bytes) :
  forallb empty_frame_header zs = true ->
  receive_frame (open_on (mkSocket (zs ++ [] :: rest) cs) r)
  = Returns None
      (open_on (mkSocket rest (cs ++ map (Recv 2) zs ++ [Recv 2 []])) r).
Proof.
  intros Hzs. apply (receive_frame_after_skip zs _ cs r); [exact Hzs |].
  rewrite receive_frame_loop_eof. now rewrite <- app_assoc.
Qed.

Lemma receive_frame_peer_closed_witness :
  receive_frame (open_on (mkSocket ([[x82; x00]; [x81; x80]] ++ [] :: [[x41]]) []) [])
  = Returns None
      (open_on (mkSocket [[x41]]
                  ([] ++ map (Recv 2) [[x82; x00]; [x81; x80]] ++ [Recv 2 []])) []).
Proof.
  apply (receive_frame_peer_closed [[x82; x00]; [x81; x80]] [[x41]] [] []).
  reflexivity.
Defined.

(** C3. If [receive_frame] is fed empty-frame headers (one, or any number
    of them) followed by a header announcing N bytes, 1 <= N <= 125, and
    the N payload bytes, it skips the empty frames and returns the N
    payload bytes; the skipping goes on until a header with a non-zero
    length, or a read of zero bytes, which ends it with [None]. *)
Theorem receive_frame_skips_empty_frames (zs : list bytes) (h0 h1 : byte)
        (payload : bytes) (rest : list bytes) (cs : list call) (r : bytes)
        (N : Z) :
  forallb empty_frame_header zs = true ->
  1 <= N <= 125 ->
  Z.land (ord_func h1) 127 = N ->
  len payload = N ->
  receive_frame (open_on (mkSocket (zs ++ [h0; h1] :: payload :: rest) cs) r)
  = Returns (Some payload)
      (open_on (mkSocket rest
                  (cs ++ map (Recv 2) zs ++ [Recv 2 [h0; h1]; Recv N payload])) r)
  /\
  receive_frame (open_on (mkSocket (zs ++ [] :: rest) cs) r)
  = Returns None
      (open_on (mkSocket rest (cs ++ map (Recv 2) zs ++ [Recv 2 []])) r).
Proof.
  intros Hzs HN HL Hlen. split.
  - apply (receive_frame_after_skip zs _ cs r); [exact Hzs |].
    rewrite (receive_frame_loop_payload h0 h1 payload rest _ r N HL) by lia.
    unfold len in Hlen.
    rewrite firstn_all2, skipn_all2 by lia.
    cbn [pushback]. now rewrite <- app_assoc.
  - apply (receive_frame_after_skip zs _ cs r); [exact Hzs |].
    rewrite receive_frame_loop_eof. now rewrite <- app_assoc.
Qed.

Lemma receive_frame_skips_empty_frames_witness :
  receive_frame
    (open_on (mkSocket ([[x82; x00]] ++ [x82; x05]
                          :: [x77; x6f; x72; x6c; x64] :: []) []) [])
  = Returns (Some [x77; x6f; x72; x6c; x64])
      (open_on (mkSocket []
                  ([] ++ map (Recv 2) [[x82; x00]]
                      ++ [Recv 2 [x82; x05];
                          Recv 5 [x77; x6f; x72; x6c; x64]])) [])
  /\
  receive_frame (open_on (mkSocket ([[x82; x00]] ++ [] :: []) []) [])
  = Returns None
      (open_on (mkSocket [] ([] ++ map (Recv 2) [[x82; x00]] ++ [Recv 2 []])) []).
Proof.
  apply (receive_frame_skips_empty_frames
           [[x82; x00]] x82 x05 [x77; x6f; x72; x6c; x64] [] [] [] 5).
  - reflexivity.
  - lia.
  - reflexivity.
  - reflexivity.
Defined.

(** C5, as the code has it. For every header whose decoded length L is
    greater than 0, [receive_frame] issues one [recv(L)] and returns what
    that one read delivers, unmodified: the first min(L, len(c)) bytes of
    the next delivery [c]. These are the L payload bytes when the delivery
    holds at least L bytes; what a partial read leaves behind stays
    pending. *)
Theorem receive_frame_single_payload_read (h0 h1 : byte) (c : bytes)
        (rest : list bytes) (cs : list call) (r : bytes) (L : Z) :
  Z.land (ord_func h1) 127 = L ->
  0 < L ->
  receive_frame (open_on (mkSocket ([h0; h1] :: c :: rest) cs) r)
  = Returns (Some (firstn (Z.to_nat L) c))
      (open_on (mkSocket (pushback (skipn (Z.to_nat L) c) rest)
                  (cs ++ [Recv 2 [h0; h1]; Recv L (firstn (Z.to_nat L) c)])) r)
  /\ len (firstn (Z.to_nat L) c) = Z.min L (len c).
Proof.
  intros HL Hpos. split.
  - apply (receive_frame_unfold 1).
    now apply receive_frame_loop_payload.
  - unfold len. rewrite length_firstn. lia.
Qed.

Lemma receive_frame_single_payload_read_witness :
  receive_frame
    (open_on (mkSocket ([x82; x05] :: [x77; x6f; x72; x6c; x64; x21] :: []) []) [])
  = Returns (Some (firstn (Z.to_nat 5) [x77; x6f; x72; x6c; x64; x21]))
      (open_on
         (mkSocket (pushback (skipn (Z.to_nat 5) [x77; x6f; x72; x6c; x64; x21]) [])
            ([] ++ [Recv 2 [x82; x05];
                    Recv 5 (firstn (Z.to_nat 5) [x77; x6f; x72; x6c; x64; x21])]))
         [])
  /\ len (firstn (Z.to_nat 5) [x77; x6f; x72; x6c; x64; x21])
     = Z.min 5 (len [x77; x6f; x72; x6c; x64; x21]).
Proof.
  apply (receive_frame_single_payload_read
           x82 x05 [x77; x6f; x72; x6c; x64; x21] [] [] [] 5).
  - reflexivity.
  - lia.
Defined.

(** Counterexample to C5 as stated: a header announces 5 bytes and the
    transport delivers them as 2 + 3; [receive_frame] returns the first 2
    bytes only and leaves the other 3 pending. *)
Lemma receive_frame_partial_payload :
  receive_frame
    (open_on (mkSocket [[x82; x05]; [x77; x6f]; [x72; x6c; x64]] []) [])
  = Returns (Some [x77; x6f])
      (open_on (mkSocket [[x72; x6c; x64]]
                  [Recv 2 [x82; x05]; Recv 5 [x77; x6f]]) [])
  /\ Z.land (ord_func x05) 127 = 5
  /\ len [x77; x6f] <> 5
  /\ [x77; x6f] <> [x77; x6f] ++ [x72; x6c; x64].
Proof.
  repeat split; try reflexivity; discriminate.
Qed.

(** An [IndexError] can only come right after a header read of one byte. *)
Lemma receive_frame_loop_IndexError (n : nat) :
  forall w w' : world,
    receive_frame_loop n w = Some (Raises IndexError w') ->
    exists pre b, calls (sock w') = pre ++ [Recv 2 [b]].
Proof.
  induction n as [| n IH]; intros w w' Hrun; [discriminate |].
  cbn [receive_frame_loop] in Hrun.
  pose proof (recv_cases 2 w ltac:(lia)) as Hc.
  destruct (via_socket (socket_recv 2) w) as [header w1 | e w1 | w1].
  - destruct Hc as [c [rest [_ [_ [_ [Hcalls _]]]]]].
    destruct (len header =? 0) eqn:Hlen; [discriminate |].
    destruct (getitem header 1) as [h1 |] eqn:Hget.
    + destruct (Z.land (ord_func h1) 127 >? 0) eqn:HL.
      * unfold bind, ret in Hrun.
        pose proof (recv_cases (Z.land (ord_func h1) 127) w1
                      ltac:(destruct (Z.gtb_spec (Z.land (ord_func h1) 127) 0);
                            [lia | discriminate])) as Hc2.
        destruct (via_socket (socket_recv (Z.land (ord_func h1) 127)) w1)
          as [d w2 | e w2 | w2]; try discriminate.
        destruct Hc2 as [-> _]. discriminate.
      * now apply (IH w1).
    + injection Hrun as <-. exists (calls (sock w)).
      destruct header as [| b [| ? ?]]; try discriminate.
      exists b. exact Hcalls.
  - destruct Hc as [-> _]. discriminate.
  - discriminate.
Qed.

(** C10. A header read that delivers exactly one byte (the first header
    read, or one after skipped empty frames) makes [receive_frame] raise
    [IndexError] on [header[1]] instead of returning [None] or a frame; and
    that is the only way it raises [IndexError]: when it does, the last
    call on the socket is a [recv(2)] that delivered one byte, so that
    header reads of 0 or 2 bytes keep the indexing in bounds. *)
Theorem receive_frame_short_header (zs : list bytes) (b : byte)
        (rest : list bytes) (cs : list call) (r : bytes) (w : world) :
  forallb empty_frame_header zs = true ->
  receive_frame (open_on (mkSocket (zs ++ [b] :: rest) cs) r)
  = Raises IndexError
      (open_on (mkSocket rest (cs ++ map (Recv 2) zs ++ [Recv 2 [b]])) r)
  /\
  match receive_frame w with
  | Raises IndexError w' => exists pre b', calls (sock w') = pre ++ [Recv 2 [b']]
  | _ => True
  end.
Proof.
  intros Hzs. split.
  - apply (receive_frame_after_skip zs _ cs r); [exact Hzs |].
    rewrite receive_frame_loop_short. now rewrite <- app_assoc.
  - destruct (receive_frame w) as [a w' | e w' | w'] eqn:Hrf; try exact I.
    destruct e; try exact I.
    unfold receive_frame in Hrf.
    destruct (receive_frame_loop _ w) as [o |] eqn:Hloop; [| discriminate].
    subst o. exact (receive_frame_loop_IndexError _ _ _ Hloop).
Qed.

Lemma receive_frame_short_header_witness :
  receive_frame (open_on (mkSocket ([[x82; x00]] ++ [x82] :: [[x05; x41]]) []) [])
  = Raises IndexError
      (open_on (mkSocket [[x05; x41]]
                  ([] ++ map (Recv 2) [[x82; x00]] ++ [Recv 2 [x82]])) [])
  /\
  match receive_frame (open_on (mkSocket [[x82]] []) []) with
  | Raises IndexError w' => exists pre b', calls (sock w') = pre ++ [Recv 2 [b']]
  | _ => True
  end.
Proof.
  apply (receive_frame_short_header [[x82; x00]] x82 [[x05; x41]] [] []
           (open_on (mkSocket [[x82]] []) [])).
  reflexivity.
Defined.

(** ** [close] *)

(** C6, as the code has it. On the first call with an open socket,
    [close()] calls [shutdown(1)], which is [SHUT_WR]: the write direction
    is shut down and the read direction is not; it then closes the socket
    and sets the reference to [None]. *)
Theorem close_shuts_write_then_closes (s : socket) (r : bytes) :
  close (open_on s r)
  = Returns tt
      {| sock := mkSocket (pending s) (calls s ++ [Shutdown SHUT_WR; Close]);
         self := mkWebSocket None r |}
  /\ shuts_write SHUT_WR = true
  /\ shuts_read SHUT_WR = false.
Proof.
  repeat split. unfold close, open_on, bind, socket_shutdown, socket_close,
    set_socket, log. cbn. now rewrite <- app_assoc.
Qed.

(** Counterexample to C6 as stated: the first [close()] of an open client
    logs [shutdown(1)] and [close()], and no [shutdown] in that log covers
    the read direction. *)
Lemma close_does_not_shut_reading :
  close (open_on (mkSocket [] []) [])
  = Returns tt
      {| sock := mkSocket [] [Shutdown 1; Close]; self := mkWebSocket None [] |}
  /\ shuts_both_directions [Shutdown 1; Close] = false
  /\ ~ In (Shutdown SHUT_RDWR) [Shutdown 1; Close].
Proof.
  split; [reflexivity |]. split; [reflexivity |].
  intros [H | [H | []]]; discriminate H.
Qed.

(** C9. [close()] is idempotent: the first call leaves the reference
    [None], and from then on any number of further calls return without
    error and leave the socket and the object exactly as they were, so
    that no socket operation is performed. *)
Theorem close_idempotent (w : world) (n : nat) :
  exists w1 : world,
    close w = Returns tt w1
    /\ _socket (self w1) = None
    /\ times n close w1 = Returns tt w1.
Proof.
  assert (Hnoop : forall w1, _socket (self w1) = None ->
                             forall k, times k close w1 = Returns tt w1).
  { intros w1 Hnone k. induction k as [| k IH]; [reflexivity |].
    cbn [times]. unfold bind at 1. unfold close at 1. rewrite Hnone.
    exact IH. }
  unfold close. destruct (_socket (self w)) as [[] |] eqn:Hs.
  - eexists. split; [reflexivity |]. split; [reflexivity |].
    now apply Hnoop.
  - exists w. split; [reflexivity |]. split; [exact Hs |].
    now apply Hnoop.
Qed.

Example close_twice :
  (close ;;; close) (open_on (mkSocket [] []) [])
  = Returns tt
      {| sock := mkSocket [] [Shutdown 1; Close]; self := mkWebSocket None [] |}.
Proof. reflexivity. Qed.

(** After [close()] the other methods fail on the [None] reference. *)
Example receive_frame_after_close :
  (close ;;; receive_frame) (open_on (mkSocket [[x82; x00]] []) [])
  = Raises AttributeError
      {| sock := mkSocket [[x82; x00]] [Shutdown 1; Close];
         self := mkWebSocket None [] |}.
Proof. reflexivity. Qed.

(** ** [bytes.find] *)

Lemma starts_with_spec (sub : bytes) :
  forall l : bytes, starts_with sub l = true <-> exists post, l = sub ++ post.
Proof.
  induction sub as [| a sub IH]; intros l.
  - cbn. split; [intros _; now exists l | reflexivity].
  - destruct l as [| b l]; cbn [starts_with].
    + split; [discriminate | intros [post H]; discriminate H].
    + rewrite andb_true_iff, IH. split.
      * intros [Hab [post ->]]. apply Byte.byte_dec_bl in Hab. subst b.
        now exists post.
      * intros [post H]. injection H as -> ->.
        split; [now apply Byte.byte_dec_lb | now exists post].
Qed.

Lemma occurs_cons (sub : bytes) (b : byte) (l : bytes) :
  occurs sub (b :: l) <-> starts_with sub (b :: l) = true \/ occurs sub l.
Proof.
  rewrite starts_with_spec. split.
  - intros [[| p pre] [post H]].
    + left. now exists post.
    + right. injection H as _ ->. now exists pre, post.
  - intros [[post H] | [pre [post ->]]].
    + exists [], post. exact H.
    + now exists (b :: pre), post.
Qed.

Lemma find_from_range (l sub : bytes) :
  forall i : Z, 0 <= i -> find_from i l sub = -1 \/ i <= find_from i l sub.
Proof.
  induction l as [| b l IH]; intros i Hi; cbn [find_from];
    destruct (starts_with sub _); try (right; lia).
  - now left.
  - destruct (IH (i + 1) ltac:(lia)); [now left | right; lia].
Qed.

Lemma find_from_absent (l sub : bytes) :
  forall i : Z, 0 <= i -> (find_from i l sub < 0 <-> ~ occurs sub l).
Proof.
  induction l as [| b l IH]; intros i Hi; cbn [find_from].
  - destruct (starts_with sub []) eqn:Hs.
    + split; [lia |]. intros Hno. exfalso. apply Hno.
      apply starts_with_spec in Hs as [post H]. now exists [], post.
    + split; [| lia]. intros _ [pre [post H]].
      destruct pre; [| discriminate H]. cbn in H.
      assert (Hs' : starts_with sub [] = true)
        by (apply starts_with_spec; now exists post).
      congruence.
  - rewrite occurs_cons. destruct (starts_with sub (b :: l)) eqn:Hs.
    + split; [lia | intros Hno; exfalso; apply Hno; now left].
    + rewrite (IH (i + 1)) by lia. split.
      * intros Hno [Hf | Ho]; [discriminate | contradiction].
      * intros Hno Ho. apply Hno. now right.
Qed.

(** [find] is negative exactly when the terminator does not occur. *)
Lemma find_absent (l sub : bytes) : find l sub < 0 <-> ~ occurs sub l.
Proof. apply find_from_absent. lia. Qed.

Lemma find_ltb_absent (l sub : bytes) :
  (find l sub <? 0) = true <-> ~ occurs sub l.
Proof. rewrite Z.ltb_lt. apply find_absent. Qed.

Lemma find_ltb_present (l sub : bytes) :
  occurs sub l -> (find l sub <? 0) = false.
Proof.
  intros Ho. destruct (find l sub <? 0) eqn:Hf; [| reflexivity].
  apply find_ltb_absent in Hf. contradiction.
Qed.

Lemma occurs_app_l (sub l l' : bytes) : occurs sub l -> occurs sub (l ++ l').
Proof.
  intros [pre [post ->]]. exists pre, (post ++ l').
  now rewrite <- !app_assoc.
Qed.

(** ** [_upgrade]: the fuel is enough *)

Lemma _upgrade_loop_mono (n : nat) :
  forall (m : nat) (data : bytes) (w : world) (o : outcome unit),
    _upgrade_loop n data w = Some o -> (n <= m)%nat ->
    _upgrade_loop m data w = Some o.
Proof.
  induction n as [| n IH]; intros m data w o Hrun Hle; [discriminate |].
  destruct m as [| m]; [lia |].
  cbn [_upgrade_loop] in *.
  destruct ((len data >? 0) && (find (response (self w)) CRLFCRLF <? 0));
    [| exact Hrun].
  destruct (via_socket (socket_recv 4096) w) as [data' w1 | e w1 | w1];
    try exact Hrun.
  unfold set_response in *. apply IH; [exact Hrun | lia].
Qed.

Lemma _upgrade_loop_total (n : nat) :
  forall (data : bytes) (w : world),
    (weight (pending (sock w)) < n)%nat -> _upgrade_loop n data w <> None.
Proof.
  induction n as [| n IH]; intros data w Hw; [lia |].
  cbn [_upgrade_loop].
  destruct ((len data >? 0) && (find (response (self w)) CRLFCRLF <? 0));
    [| discriminate].
  destruct (via_socket (socket_recv 4096) w) as [data' w1 | e w1 | w1] eqn:Hr;
    try discriminate.
  unfold set_response. apply IH. cbn [sock].
  apply recv_weight in Hr; lia.
Qed.

Lemma _upgrade_while_unfold (n : nat) (data : bytes) (w : world)
      (o : outcome unit) :
  _upgrade_loop n data w = Some o -> _upgrade_while data w = o.
Proof.
  intros Hrun. unfold _upgrade_while.
  set (k := S (weight (pending (sock w)))).
  destruct (_upgrade_loop k data w) as [o' |] eqn:Hk.
  - apply (_upgrade_loop_mono _ (Nat.max n k)) in Hrun; [| lia].
    apply (_upgrade_loop_mono _ (Nat.max n k)) in Hk; [| lia].
    congruence.
  - exfalso.
    apply (_upgrade_loop_total k data w); [unfold k; lia | exact Hk].
Qed.

(** The constructor up to the loop: the request goes out, the first read
    fills [response]. *)
Lemma __init___first_read (c : bytes) (rest : list bytes) (cs : list call)
      (url : url_t) :
  __init__ (mkSocket (c :: rest) cs) url
  = _upgrade_while (firstn (Z.to_nat 4096) c)
      (open_on (mkSocket (pushback (skipn (Z.to_nat 4096) c) rest)
                  (cs ++ [Sendall (encode_utf8 (reqdata url));
                          Recv 4096 (firstn (Z.to_nat 4096) c)]))
               (firstn (Z.to_nat 4096) c)).
Proof.
  unfold __init__, _upgrade, bind.
  change (via_socket (socket_sendall ?d) {| sock := ?s; self := ?o |})
    with (Returns tt (open_on (mkSocket (pending s) (calls s ++ [Sendall d]))
                              (response o))).
  cbn [pending calls response].
  rewrite recv_open by lia. unfold set_response, open_on.
  cbn [sock self _socket response]. now rewrite <- app_assoc.
Qed.

(** ** The request *)

Lemma string_append_assoc (a b c : string) :
  ((a ++ b) ++ c = a ++ (b ++ c))%string.
Proof.
  induction a as [| x a IH]; cbn; [reflexivity | now rewrite IH].
Qed.

Lemma reqdata_literal (url : url_t) :
  reqdata url = literal_request (hostname url) (port url) (query url).
Proof.
  unfold reqdata, literal_request, request_lines. cbn [fold_right].
  repeat rewrite string_append_assoc. reflexivity.
Qed.

Lemma _upgrade_loop_calls (n : nat) :
  forall (data : bytes) (w : world) (o : outcome unit),
    _upgrade_loop n data w = Some o ->
    exists reads,
      calls (sock (world_of o)) = calls (sock w) ++ reads /\
      forallb is_recv reads = true.
Proof.
  induction n as [| n IH]; intros data w o Hrun; [discriminate |].
  cbn [_upgrade_loop] in Hrun.
  destruct ((len data >? 0) && (find (response (self w)) CRLFCRLF <? 0)).
  - pose proof (recv_cases 4096 w ltac:(lia)) as Hc.
    destruct (via_socket (socket_recv 4096) w) as [data' w1 | e w1 | w1].
    + destruct Hc as [c [rest [_ [_ [_ [Hcalls _]]]]]].
      unfold set_response in Hrun. apply IH in Hrun as [reads [Hreads Hall]].
      cbn [sock] in Hreads. rewrite Hcalls, <- app_assoc in Hreads.
      exists ([Recv 4096 data'] ++ reads). split; [exact Hreads |].
      exact Hall.
    + destruct Hc as [_ ->]. injection Hrun as <-.
      exists []. now rewrite app_nil_r.
    + destruct Hc as [-> _]. injection Hrun as <-.
      exists []. now rewrite app_nil_r.
  - injection Hrun as <-. exists []. now rewrite app_nil_r.
Qed.

(** The bytes of the request, with the text of the port left as it is. *)
Lemma list_byte_of_string_app (a b : string) :
  list_byte_of_string (a ++ b)
  = list_byte_of_string a ++ list_byte_of_string b.
Proof.
  induction a as [| x a IH]; [reflexivity |].
  change (list_byte_of_string (String x a ++ b))
    with (byte_of_ascii x :: list_byte_of_string (a ++ b)).
  change (list_byte_of_string (String x a))
    with (byte_of_ascii x :: list_byte_of_string a).
  now rewrite IH.
Qed.

Lemma reqdata_bytes (url : url_t) :
  encode_utf8 (reqdata url)
  = list_byte_of_string "GET /websockify HTTP/1.1" ++ [x0d; x0a]
    ++ list_byte_of_string "Host: " ++ list_byte_of_string (hostname url)
    ++ [x3a] ++ list_byte_of_string (str_int (port url)) ++ [x0d; x0a]
    ++ list_byte_of_string "Upgrade: websocket" ++ [x0d; x0a]
    ++ list_byte_of_string "Connection: Upgrade" ++ [x0d; x0a]
    ++ list_byte_of_string "Cookie: " ++ list_byte_of_string (query url)
    ++ [x0d; x0a]
    ++ list_byte_of_string "Sec-WebSocket-Key: x3JJHMbDL1EzLkh9GBhXDw=="
    ++ [x0d; x0a]
    ++ list_byte_of_string "Sec-WebSocket-Version: 13" ++ [x0d; x0a]
    ++ list_byte_of_string "Sec-WebSocket-Protocol: binary" ++ [x0d; x0a]
    ++ [x0d; x0a].
Proof.
  unfold encode_utf8, reqdata.
  repeat rewrite list_byte_of_string_app.
  change (list_byte_of_string CRLF) with [x0d; x0a].
  change (list_byte_of_string ":") with [x3a].
  repeat rewrite <- app_assoc. reflexivity.
Qed.

(** The text of the port: its decimal digits. *)
Lemma string_of_uint_bytes (d : Decimal.uint) :
  map Byte.to_N (list_byte_of_string (DecimalString.NilEmpty.string_of_uint d))
  = map (fun x => (48 + x)%N) (uint_digits d).
Proof.
  induction d as [| d IH | d IH | d IH | d IH | d IH | d IH | d IH | d IH
                  | d IH | d IH]; [reflexivity | ..];
    cbn [DecimalString.NilEmpty.string_of_uint uint_digits map];
    match goal with
    | |- context [list_byte_of_string (String ?c ?t)] =>
        change (list_byte_of_string (String c t))
          with (byte_of_ascii c :: list_byte_of_string t)
    end;
    cbn [map]; rewrite IH; reflexivity.
Qed.

Lemma uint_digits_below_10 (d : Decimal.uint) :
  Forall (fun x => (x < 10)%N) (uint_digits d).
Proof.
  induction d; cbn [uint_digits]; constructor; (assumption || reflexivity).
Qed.

Lemma of_uint_acc_horner (d : Decimal.uint) :
  forall acc : positive,
    N.pos (Pos.of_uint_acc d acc)
    = fold_left (fun a x => (10 * a + x)%N) (uint_digits d) (N.pos acc).
Proof.
  induction d as [| d IH | d IH | d IH | d IH | d IH | d IH | d IH | d IH
                  | d IH | d IH]; intros acc; [reflexivity | ..];
    cbn [Pos.of_uint_acc uint_digits fold_left]; rewrite IH;
    f_equal; lia.
Qed.

Lemma of_uint_horner (d : Decimal.uint) :
  N.of_uint d = fold_left (fun a x => (10 * a + x)%N) (uint_digits d) 0%N.
Proof.
  unfold N.of_uint.
  induction d as [| d IH | d IH | d IH | d IH | d IH | d IH | d IH | d IH
                  | d IH | d IH]; [reflexivity | exact IH | ..];
    cbn [Pos.of_uint uint_digits fold_left]; apply of_uint_acc_horner.
Qed.

(** ['%s' % port] writes the port in decimal, without leading zeros. *)
Lemma str_int_decimal (n : N) :
  exists digits : list N,
    map Byte.to_N (list_byte_of_string (str_int n))
    = map (fun x => (48 + x)%N) digits
    /\ Forall (fun x => (x < 10)%N) digits
    /\ fold_left (fun a x => (10 * a + x)%N) digits 0%N = n
    /\ (digits = [0%N] \/ (0 < hd 0%N digits)%N).
Proof.
  exists (uint_digits (N.to_uint n)).
  assert (Hnorm : Decimal.unorm (N.to_uint n) = N.to_uint n).
  { rewrite <- (DecimalN.Unsigned.to_of (N.to_uint n)).
    now rewrite DecimalN.Unsigned.of_to. }
  assert (Hnonnil : N.to_uint n <> Decimal.Nil)
    by (rewrite <- Hnorm; apply DecimalFacts.unorm_nonnil).
  repeat split.
  - unfold str_int, DecimalString.NilZero.string_of_uint.
    destruct (N.to_uint n); [contradiction | ..]; apply string_of_uint_bytes.
  - apply uint_digits_below_10.
  - rewrite <- of_uint_horner. apply DecimalN.Unsigned.of_to.
  - destruct (Decimal.nzhead (N.to_uint n)) eqn:Hnz.
    + left. apply DecimalFacts.unorm_0 in Hnz. rewrite Hnorm in Hnz.
      now rewrite Hnz.
    + exfalso. apply (DecimalFacts.nzhead_nonzero _ _ Hnz).
    + right. rewrite <- Hnorm, DecimalFacts.unorm_nzhead, Hnz by congruence.
      reflexivity.
    + right. rewrite <- Hnorm, DecimalFacts.unorm_nzhead, Hnz by congruence.
      reflexivity.
    + right. rewrite <- Hnorm, DecimalFacts.unorm_nzhead, Hnz by congruence.
      reflexivity.
    + right. rewrite <- Hnorm, DecimalFacts.unorm_nzhead, Hnz by congruence.
      reflexivity.
    + right. rewrite <- Hnorm, DecimalFacts.unorm_nzhead, Hnz by congruence.
      reflexivity.
    + right. rewrite <- Hnorm, DecimalFacts.unorm_nzhead, Hnz by congruence.
      reflexivity.
    + right. rewrite <- Hnorm, DecimalFacts.unorm_nzhead, Hnz by congruence.
      reflexivity.
    + right. rewrite <- Hnorm, DecimalFacts.unorm_nzhead, Hnz by congruence.
      reflexivity.
    + right. rewrite <- Hnorm, DecimalFacts.unorm_nzhead, Hnz by congruence.
      reflexivity.
Qed.

(** C7. During construction the client sends on the socket, in one
    [sendall], exactly these bytes: the line GET /websockify HTTP/1.1, then
    the headers Host: <host>:<port>, Upgrade: websocket, Connection: Upgrade,
    Cookie: <query>, Sec-WebSocket-Key: x3JJHMbDL1EzLkh9GBhXDw==,
    Sec-WebSocket-Version: 13 and Sec-WebSocket-Protocol: binary, each line
    ended by the bytes 0x0d 0x0a, and a final 0x0d 0x0a. The port is written
    as its decimal digits (ASCII 48 + digit), most significant first,
    without leading zero. Every other call construction makes on the
    socket is a read. This holds however construction ends. *)
Theorem constructor_sends_literal_request (s : socket) (url : url_t) :
  exists (digits : list N) (port_text : bytes) (reads : list call),
    calls (sock (world_of (__init__ s url)))
    = calls s
      ++ Sendall
           (list_byte_of_string "GET /websockify HTTP/1.1" ++ [x0d; x0a]
            ++ list_byte_of_string "Host: "
            ++ list_byte_of_string (hostname url)
            ++ [x3a] ++ port_text ++ [x0d; x0a]
            ++ list_byte_of_string "Upgrade: websocket" ++ [x0d; x0a]
            ++ list_byte_of_string "Connection: Upgrade" ++ [x0d; x0a]
            ++ list_byte_of_string "Cookie: "
            ++ list_byte_of_string (query url) ++ [x0d; x0a]
            ++ list_byte_of_string
                 "Sec-WebSocket-Key: x3JJHMbDL1EzLkh9GBhXDw=="
            ++ [x0d; x0a]
            ++ list_byte_of_string "Sec-WebSocket-Version: 13" ++ [x0d; x0a]
            ++ list_byte_of_string "Sec-WebSocket-Protocol: binary"
            ++ [x0d; x0a]
            ++ [x0d; x0a])
      :: reads
    /\ forallb is_recv reads = true
    /\ map Byte.to_N port_text = map (fun d => (48 + d)%N) digits
    /\ Forall (fun d => (d < 10)%N) digits
    /\ fold_left (fun a d => (10 * a + d)%N) digits 0%N = port url
    /\ (digits = [0%N] \/ (0 < hd 0%N digits)%N).
Proof.
  destruct (str_int_decimal (port url)) as [digits [Htext Hdigits]].
  exists digits, (list_byte_of_string (str_int (port url))).
  rewrite <- reqdata_bytes.
  assert (Hlog : exists reads : list call,
             calls (sock (world_of (__init__ s url)))
             = calls s ++ Sendall (encode_utf8 (reqdata url)) :: reads
             /\ forallb is_recv reads = true).
  { destruct s as [[| c rest] cs].
    - exists []. split; reflexivity.
    - rewrite __init___first_read. unfold _upgrade_while.
      destruct (_upgrade_loop _ _ _) as [o |] eqn:Hloop.
      + apply _upgrade_loop_calls in Hloop as [reads [Hreads Hall]].
        cbn [sock calls open_on] in Hreads. rewrite <- app_assoc in Hreads.
        exists (Recv 4096 (firstn (Z.to_nat 4096) c) :: reads).
        split; [exact Hreads | exact Hall].
      + exists [Recv 4096 (firstn (Z.to_nat 4096) c)]. split; reflexivity. }
  destruct Hlog as [reads [Hcalls Hall]].
  exists reads. split; [exact Hcalls |]. split; [exact Hall |].
  split; [exact Htext | exact Hdigits].
Qed.

(** The request for a console at 10.0.0.5, port 6083, byte for byte. *)
Example request_bytes_for_console :
  __init__ (mkSocket [] []) console_url
  = Blocks
      (open_on
         (mkSocket []
            [Sendall
               (list_byte_of_string "GET /websockify HTTP/1.1" ++ [x0d; x0a]
                ++ list_byte_of_string "Host: 10.0.0.5:6083" ++ [x0d; x0a]
                ++ list_byte_of_string "Upgrade: websocket" ++ [x0d; x0a]
                ++ list_byte_of_string "Connection: Upgrade" ++ [x0d; x0a]
                ++ list_byte_of_string "Cookie: token=abc" ++ [x0d; x0a]
                ++ list_byte_of_string
                     "Sec-WebSocket-Key: x3JJHMbDL1EzLkh9GBhXDw=="
                ++ [x0d; x0a]
                ++ list_byte_of_string "Sec-WebSocket-Version: 13"
                ++ [x0d; x0a]
                ++ list_byte_of_string "Sec-WebSocket-Protocol: binary"
                ++ [x0d; x0a]
                ++ [x0d; x0a])]) []).
Proof. reflexivity. Qed.

Example request_for_console :
  reqdata console_url
  = ("GET /websockify HTTP/1.1" ++ CRLF
     ++ "Host: 10.0.0.5:6083" ++ CRLF
     ++ "Upgrade: websocket" ++ CRLF
     ++ "Connection: Upgrade" ++ CRLF
     ++ "Cookie: token=abc" ++ CRLF
     ++ "Sec-WebSocket-Key: x3JJHMbDL1EzLkh9GBhXDw==" ++ CRLF
     ++ "Sec-WebSocket-Version: 13" ++ CRLF
     ++ "Sec-WebSocket-Protocol: binary" ++ CRLF
     ++ CRLF)%string.
Proof. reflexivity. Qed.

(** ** [find] gives the first occurrence *)

Lemma find_from_first (l sub : bytes) :
  forall i k : Z,
    0 <= i -> 0 <= k -> find_from i l sub = i + k ->
    exists pre post,
      l = pre ++ sub ++ post /\ len pre = k /\
      forall pre' post', l = pre' ++ sub ++ post' -> k <= len pre'.
Proof.
  induction l as [| b l IH]; intros i k Hi Hk Hfind; cbn [find_from] in Hfind.
  - destruct (starts_with sub []) eqn:Hs; [| lia].
    apply starts_with_spec in Hs as [post Hpost].
    exists [], post. repeat split; [exact Hpost | unfold len; cbn; lia |].
    intros pre' post' _. unfold len. lia.
  - destruct (starts_with sub (b :: l)) eqn:Hs.
    + apply starts_with_spec in Hs as [post Hpost].
      exists [], post. repeat split; [exact Hpost | unfold len; cbn; lia |].
      intros pre' post' _. unfold len. lia.
    + destruct (find_from_range l sub (i + 1) ltac:(lia)) as [Hneg | Hge];
        [lia |].
      destruct (IH (i + 1) (k - 1) ltac:(lia) ltac:(lia) ltac:(lia))
        as [pre [post [Hl [Hlen Hmin]]]].
      exists (b :: pre), post. repeat split.
      * now rewrite Hl.
      * unfold len in *. cbn [List.length]. lia.
      * intros [| p pre'] post' Heq.
        -- assert (Hs' : starts_with sub (b :: l) = true)
             by (apply starts_with_spec; now exists post').
           congruence.
        -- injection Heq as _ Heq. apply Hmin in Heq.
           unfold len in *. cbn [List.length]. lia.
Qed.

(** Deciding the two shapes of a response by running [find]. *)
Lemma occurs_by_find (l sub : bytes) : 0 <= find l sub -> occurs sub l.
Proof.
  intros Hf.
  destruct (find_from_first l sub 0 (find l sub) ltac:(lia) Hf eq_refl)
    as [pre [post [Hl _]]].
  now exists pre, post.
Qed.

Lemma occurs_only_at_end_by_find (l sub : bytes) :
  len sub <= len l -> find l sub = len l - len sub ->
  occurs_only_at_end sub l.
Proof.
  intros Hle Hf.
  destruct (find_from_first l sub 0 (find l sub) ltac:(lia) ltac:(lia) eq_refl)
    as [pre [post [Hl [_ Hmin]]]].
  split; [now exists pre, post |].
  intros pre' post' Heq. specialize (Hmin pre' post' Heq).
  apply (f_equal (@List.length byte)) in Heq.
  rewrite !length_app in Heq. unfold len in *.
  destruct post'; [reflexivity | cbn [List.length] in Heq; lia].
Qed.

(** ** [_upgrade]: the read loop *)

Lemma partial_read_inv (c : bytes) :
  partial_read c = true -> 0 < len c <= 4096.
Proof.
  unfold partial_read. rewrite andb_true_iff, Z.ltb_lt, Z.leb_le. tauto.
Qed.

Lemma len_pos_gtb (c : bytes) : 0 < len c -> (len c >? 0) = true.
Proof. intros H. destruct (Z.gtb_spec (len c) 0); [reflexivity | lia]. Qed.

Lemma len_pos_nonempty (c : bytes) : 0 < len c -> c <> [].
Proof. intros H ->. unfold len in H. cbn in H. lia. Qed.

Lemma _upgrade_loop_S (n : nat) (data : bytes) (w : world) :
  _upgrade_loop (S n) data w =
  if (len data >? 0) && (find (response (self w)) CRLFCRLF <? 0) then
    match via_socket (socket_recv 4096) w with
    | Returns data' w1 =>
        match set_response (response (self w1) ++ data') w1 with
        | Returns _ w2 => _upgrade_loop n data' w2
        | Raises e w2 => Some (Raises e w2)
        | Blocks w2 => Some (Blocks w2)
        end
    | Raises e w1 => Some (Raises e w1)
    | Blocks w1 => Some (Blocks w1)
    end
  else Some (Returns tt w).
Proof. reflexivity. Qed.

(** With the terminator only at the very end of what is still to come,
    the loop reads every delivery and stops. *)
Lemma _upgrade_loop_until_terminator (chunks : list bytes) :
  forall (acc data : bytes) (rest : list bytes) (cs : list call),
    forallb partial_read chunks = true ->
    0 < len data ->
    occurs_only_at_end CRLFCRLF (acc ++ List.concat chunks) ->
    _upgrade_loop (S (List.length chunks)) data
      (open_on (mkSocket (chunks ++ rest) cs) acc)
    = Some (Returns tt
              (open_on (mkSocket rest (cs ++ map (Recv 4096) chunks))
                       (acc ++ List.concat chunks))).
Proof.
  induction chunks as [| c chunks IH]; intros acc data rest cs Hall Hdata Hend;
    cbn [_upgrade_loop open_on self response].
  - rewrite (len_pos_gtb _ Hdata). cbn [List.concat map] in *.
    rewrite !app_nil_r in *.
    destruct Hend as [Hocc _]. rewrite (find_ltb_present _ _ Hocc).
    reflexivity.
  - cbn [forallb] in Hall. apply andb_prop in Hall as [Hc Hall].
    apply partial_read_inv in Hc as [Hc0 Hc1].
    rewrite (len_pos_gtb _ Hdata).
    assert (Habs : (find acc CRLFCRLF <? 0) = true).
    { apply find_ltb_absent. intros [pre [post Hacc]].
      destruct Hend as [_ Hlast].
      specialize (Hlast pre (post ++ List.concat (c :: chunks))).
      rewrite Hacc, <- !app_assoc in Hlast. specialize (Hlast eq_refl).
      apply app_eq_nil in Hlast as [_ Hnil]. cbn [List.concat] in Hnil.
      apply app_eq_nil in Hnil as [Hnil _].
      now apply (len_pos_nonempty c Hc0). }
    rewrite Habs. cbn [andb app].
    change (open_on ?s ?r) with {| sock := s; self := mkWebSocket (Some client_socket) r |}.
    change {| sock := ?s; self := mkWebSocket (Some client_socket) ?r |}
      with (open_on s r).
    rewrite recv_open_whole by lia.
    unfold set_response at 1. cbn [sock self _socket response open_on].
    change {| sock := ?s; self := {| _socket := Some client_socket; response := ?r |} |}
      with (open_on s r).
    cbn [List.length].
    rewrite (IH (acc ++ c) c rest (cs ++ [Recv 4096 c]) Hall Hc0).
    + cbn [List.concat map]. now rewrite <- !app_assoc.
    + cbn [List.concat] in Hend. now rewrite <- app_assoc.
Qed.

(** Without a terminator the loop reads on until the peer closes. *)
Lemma _upgrade_loop_until_close (chunks : list bytes) :
  forall (acc data : bytes) (rest : list bytes) (cs : list call),
    forallb partial_read chunks = true ->
    0 < len data ->
    ~ occurs CRLFCRLF (acc ++ List.concat chunks) ->
    _upgrade_loop (S (S (List.length chunks))) data
      (open_on (mkSocket (chunks ++ [] :: rest) cs) acc)
    = Some (Returns tt
              (open_on (mkSocket rest (cs ++ map (Recv 4096) (chunks ++ [[]])))
                       (acc ++ List.concat chunks))).
Proof.
  induction chunks as [| c chunks IH]; intros acc data rest cs Hall Hdata Hno.
  - cbn [_upgrade_loop List.length open_on self response].
    rewrite (len_pos_gtb _ Hdata). cbn [List.concat] in *.
    rewrite app_nil_r in Hno.
    rewrite (proj2 (find_ltb_absent _ _) Hno). cbn [andb app].
    change {| sock := ?s; self := {| _socket := Some client_socket; response := ?r |} |}
      with (open_on s r).
    rewrite recv_open_whole by (cbn; lia).
    reflexivity.
  - cbn [List.length]. rewrite _upgrade_loop_S. cbn [open_on self response].
    cbn [forallb] in Hall. apply andb_prop in Hall as [Hc Hall].
    apply partial_read_inv in Hc as [Hc0 Hc1].
    rewrite (len_pos_gtb _ Hdata).
    assert (Habs : (find acc CRLFCRLF <? 0) = true).
    { apply find_ltb_absent. intros Hocc. apply Hno.
      now apply occurs_app_l. }
    rewrite Habs. cbn [andb app].
    change {| sock := ?s; self := {| _socket := Some client_socket; response := ?r |} |}
      with (open_on s r).
    rewrite recv_open_whole by lia.
    unfold set_response at 1. cbn [sock self _socket response open_on].
    change {| sock := ?s; self := {| _socket := Some client_socket; response := ?r |} |}
      with (open_on s r).
    rewrite (IH (acc ++ c) c rest (cs ++ [Recv 4096 c]) Hall Hc0).
    + cbn [List.concat map app]. now rewrite <- !app_assoc.
    + cbn [List.concat] in Hno. now rewrite <- app_assoc.
Qed.

(** C2. For every sequence of partial reads [chunks] (each of 1..4096
    bytes) whose concatenation contains the terminator only at the end of
    the final chunk, the handshake loop of the constructor returns after
    reading exactly these chunks: the buffer [response] is their whole
    concatenation, the reads are one [recv(4096)] per chunk, and what the
    peer delivers afterwards stays pending. The chunking is arbitrary, so
    the terminator may straddle chunks. The loop also stops at a read of
    zero bytes: with chunks [chunks'] that hold no terminator followed by an
    empty delivery, the constructor returns after that empty read. *)
Theorem handshake_reads_until_terminator (url : url_t)
        (chunks chunks' rest : list bytes) (cs : list call) :
  forallb partial_read chunks = true ->
  occurs_only_at_end CRLFCRLF (List.concat chunks) ->
  forallb partial_read chunks' = true ->
  ~ occurs CRLFCRLF (List.concat chunks') ->
  __init__ (mkSocket (chunks ++ rest) cs) url
  = Returns tt
      (open_on (mkSocket rest
                  (cs ++ Sendall (encode_utf8 (reqdata url))
                      :: map (Recv 4096) chunks))
               (List.concat chunks))
  /\
  __init__ (mkSocket (chunks' ++ [] :: rest) cs) url
  = Returns tt
      (open_on (mkSocket rest
                  (cs ++ Sendall (encode_utf8 (reqdata url))
                      :: map (Recv 4096) (chunks' ++ [[]])))
               (List.concat chunks')).
Proof.
  intros Hall Hend Hall' Hno. split.
  - destruct chunks as [| c chunks].
    + exfalso. destruct Hend as [[pre [post Hocc]] _].
      cbn in Hocc. destruct pre; discriminate Hocc.
    + cbn [forallb] in Hall. apply andb_prop in Hall as [Hc Hall].
      apply partial_read_inv in Hc as [Hc0 Hc1].
      cbn [app]. rewrite __init___first_read.
      unfold len in Hc1. rewrite firstn_all2, skipn_all2 by lia.
      cbn [pushback].
      apply (_upgrade_while_unfold (S (List.length chunks))).
      rewrite (_upgrade_loop_until_terminator chunks c c rest _ Hall Hc0 Hend).
      cbn [List.concat map]. now rewrite <- !app_assoc.
  - destruct chunks' as [| c chunks'].
    + cbn [app]. rewrite __init___first_read.
      apply (_upgrade_while_unfold 1). cbn. reflexivity.
    + cbn [forallb] in Hall'. apply andb_prop in Hall' as [Hc Hall'].
      apply partial_read_inv in Hc as [Hc0 Hc1].
      cbn [app]. rewrite __init___first_read.
      unfold len in Hc1. rewrite firstn_all2, skipn_all2 by lia.
      cbn [pushback].
      apply (_upgrade_while_unfold (S (S (List.length chunks')))).
      rewrite (_upgrade_loop_until_close chunks' c c rest _ Hall' Hc0 Hno).
      cbn [List.concat map app]. now rewrite <- !app_assoc.
Qed.

Lemma handshake_reads_until_terminator_witness :
  __init__ (mkSocket (switching_protocols_chunks ++ [[x82; x05]]) []) console_url
  = Returns tt
      (open_on (mkSocket [[x82; x05]]
                  ([] ++ Sendall (encode_utf8 (reqdata console_url))
                      :: map (Recv 4096) switching_protocols_chunks))
               (List.concat switching_protocols_chunks))
  /\
  __init__ (mkSocket (truncated_chunks ++ [] :: [[x82; x05]]) []) console_url
  = Returns tt
      (open_on (mkSocket [[x82; x05]]
                  ([] ++ Sendall (encode_utf8 (reqdata console_url))
                      :: map (Recv 4096) (truncated_chunks ++ [[]])))
               (List.concat truncated_chunks)).
Proof.
  apply (handshake_reads_until_terminator console_url
           switching_protocols_chunks truncated_chunks [[x82; x05]] []).
  - reflexivity.
  - apply occurs_only_at_end_by_find; [vm_compute; discriminate | reflexivity].
  - reflexivity.
  - apply find_absent. reflexivity.
Defined.

(** ** [_upgrade]: any response with a terminator is accepted *)

Lemma _upgrade_loop_returns (n : nat) :
  forall (ps : list bytes) (acc data : bytes) (cs : list call),
    occurs CRLFCRLF (acc ++ List.concat ps) ->
    (weight ps < n)%nat ->
    exists w' : world,
      _upgrade_loop n data (open_on (mkSocket ps cs) acc) = Some (Returns tt w')
      /\ _socket (self w') = Some client_socket
      /\ exists more, acc ++ List.concat ps = response (self w') ++ more.
Proof.
  induction n as [| n IH]; intros ps acc data cs Hocc Hw; [lia |].
  rewrite _upgrade_loop_S. cbn [open_on self response].
  destruct ((len data >? 0) && (find acc CRLFCRLF <? 0)) eqn:Hcond.
  - apply andb_prop in Hcond as [_ Habs]. apply find_ltb_absent in Habs.
    destruct ps as [| c ps].
    { exfalso. apply Habs. cbn in Hocc. now rewrite app_nil_r in Hocc. }
    change {| sock := ?s; self := {| _socket := Some client_socket; response := ?r |} |}
      with (open_on s r).
    rewrite recv_open by lia.
    unfold set_response at 1. cbn [sock self _socket response open_on].
    change {| sock := ?s; self := {| _socket := Some client_socket; response := ?r |} |}
      with (open_on s r).
    assert (Hsame : (acc ++ firstn (Z.to_nat 4096) c)
                    ++ List.concat (pushback (skipn (Z.to_nat 4096) c) ps)
                    = acc ++ List.concat (c :: ps)).
    { rewrite pushback_concat. cbn [List.concat].
      rewrite <- app_assoc. f_equal. rewrite app_assoc. f_equal.
      apply firstn_skipn. }
    destruct (IH (pushback (skipn (Z.to_nat 4096) c) ps)
                 (acc ++ firstn (Z.to_nat 4096) c)
                 (firstn (Z.to_nat 4096) c)
                 (cs ++ [Recv 4096 (firstn (Z.to_nat 4096) c)]))
      as [w' [Hrun [Hsock [more Hmore]]]].
    + now rewrite Hsame.
    + pose proof (pushback_weight (Z.to_nat 4096) c ps ltac:(lia)). lia.
    + exists w'. split; [exact Hrun |]. split; [exact Hsock |].
      exists more. now rewrite <- Hsame.
  - eexists. split; [reflexivity |]. split; [reflexivity |].
    now exists (List.concat ps).
Qed.

(** C8. For every response that contains the terminator, however the peer
    cuts it into deliveries and whatever its bytes are (status line and
    Sec-WebSocket-Accept included), construction returns: it raises
    nothing and does not block; the client is open, and [response] holds a
    prefix of what the peer delivered. *)
Theorem constructor_accepts_any_response (url : url_t) (ps : list bytes)
        (cs : list call) :
  occurs CRLFCRLF (List.concat ps) ->
  exists w' : world,
    __init__ (mkSocket ps cs) url = Returns tt w'
    /\ _socket (self w') = Some client_socket
    /\ exists more, List.concat ps = response (self w') ++ more.
Proof.
  intros Hocc. destruct ps as [| c ps].
  - exfalso. destruct Hocc as [pre [post Hocc]].
    cbn in Hocc. destruct pre; discriminate Hocc.
  - rewrite __init___first_read.
    assert (Hsame : firstn (Z.to_nat 4096) c
                    ++ List.concat (pushback (skipn (Z.to_nat 4096) c) ps)
                    = List.concat (c :: ps)).
    { rewrite pushback_concat. cbn [List.concat].
      rewrite app_assoc. f_equal. apply firstn_skipn. }
    destruct (_upgrade_loop_returns
                (S (weight (pushback (skipn (Z.to_nat 4096) c) ps)))
                (pushback (skipn (Z.to_nat 4096) c) ps)
                (firstn (Z.to_nat 4096) c) (firstn (Z.to_nat 4096) c)
                (cs ++ [Sendall (encode_utf8 (reqdata url));
                        Recv 4096 (firstn (Z.to_nat 4096) c)]))
      as [w' [Hrun [Hsock [more Hmore]]]].
    + now rewrite Hsame.
    + lia.
    + exists w'. split; [| split; [exact Hsock |]].
      * now apply (_upgrade_while_unfold _ _ _ _ Hrun).
      * exists more. now rewrite <- Hsame.
Qed.

(** A refusal is accepted like a success. *)
Lemma constructor_accepts_any_response_witness :
  exists w' : world,
    __init__ (mkSocket not_found_chunks []) console_url = Returns tt w'
    /\ _socket (self w') = Some client_socket
    /\ exists more,
         List.concat not_found_chunks = response (self w') ++ more.
Proof.
  apply (constructor_accepts_any_response console_url not_found_chunks []).
  apply occurs_by_find. vm_compute. discriminate.
Defined.

Example constructor_not_found :
  __init__ (mkSocket not_found_chunks []) console_url
  = Returns tt
      (open_on (mkSocket []
                  [Sendall (encode_utf8 (reqdata console_url));
                   Recv 4096 (list_byte_of_string "HTTP/1.1 404 Not Found");
                   Recv 4096 [x0d; x0a; x0d; x0a]])
               (List.concat not_found_chunks)).
Proof. reflexivity. Qed.

(** Without a terminator and without a close the constructor blocks. *)
Example constructor_blocks :
  __init__ (mkSocket truncated_chunks []) console_url
  = Blocks
      (open_on (mkSocket []
                  [Sendall (encode_utf8 (reqdata console_url));
                   Recv 4096 (List.concat truncated_chunks)])
               (List.concat truncated_chunks)).
Proof. reflexivity. Qed.

(** * Further properties of the framing engine *)

(** ** [send_frame]: what a peer decodes, and the payload sizes *)

Lemma map_nth_seq {A B : Type} (f : A -> B) (d : A) (l : list A) :
  map (fun i => f (nth i l d)) (seq 0 (List.length l)) = map f l.
Proof.
  induction l as [| a l IH]; [reflexivity |].
  cbn [List.length seq map nth]. f_equal.
  rewrite <- seq_shift, map_map. exact IH.
Qed.

Lemma frame_bytes_packable_255 (data : bytes) :
  len data <= 255 -> Forall (fun z => 0 <= z < 256) (frame_bytes data).
Proof.
  intros Hlen. rewrite frame_bytes_shape.
  repeat (apply Forall_cons; [try lia |]).
  - apply lor_byte; unfold len in *; lia.
  - apply Forall_forall. intros z Hz. apply in_map_iff in Hz.
    destruct Hz as [i [<- _]].
    apply lxor_byte; [apply ord_func_range | apply mask_entry_byte].
Qed.

(** The 7-bit length field of the second header byte. *)
Lemma length_field (n : Z) : 0 <= n -> Z.land (Z.lor n 128) 127 = n mod 128.
Proof.
  intros Hn. rewrite Z.land_lor_distr_l.
  change (Z.land 128 127) with 0. rewrite Z.lor_0_r.
  change 127 with (Z.ones 7). rewrite Z.land_ones by lia. reflexivity.
Qed.

Lemma lxor_twice (a m : Z) : Z.lxor (Z.lxor a m) m = a.
Proof. now rewrite Z.lxor_assoc, Z.lxor_nilpotent, Z.lxor_0_r. Qed.

(** What [send_frame] writes for a payload that can be packed. *)
Lemma send_frame_sends (P : bytes) (s : socket) (r : bytes) :
  len P <= 255 ->
  exists frame : bytes,
    send_frame P (open_on s r)
    = Returns tt (open_on (mkSocket (pending s) (calls s ++ [Sendall frame])) r)
    /\ map ord_func frame = frame_bytes P.
Proof.
  intros Hlen.
  destruct (struct_pack_B_ord _ (frame_bytes_packable_255 P Hlen))
    as [frame [Hpack Hord]].
  exists frame. split; [| exact Hord].
  unfold send_frame. rewrite Hpack. reflexivity.
Qed.

Lemma ord_nth (frame : bytes) (k : nat) :
  ord_func (nth k frame x00) = nth k (map ord_func frame) 0.
Proof. exact (eq_sym (map_nth ord_func frame x00 k)). Qed.

(** X1. Masking round trip: for a payload P of at most 125 bytes, a peer
    that decodes the frame written by [send_frame] the standard way (length
    from the low 7 bits of byte 1, key from bytes 2..5, payload bytes from
    offset 6 XORed with key[i mod 4]) gets P back exactly. *)
Theorem send_frame_unmask_roundtrip (P : bytes) (s : socket) (r : bytes) :
  len P <= 125 ->
  exists frame : bytes,
    send_frame P (open_on s r)
    = Returns tt (open_on (mkSocket (pending s) (calls s ++ [Sendall frame])) r)
    /\ Z.land (ord_func (nth 1 frame x00)) 127 = len P
    /\ map (fun i => Z.lxor (ord_func (nth (6 + i) frame x00))
                            (nth (i mod 4)
                                 (map ord_func (firstn 4 (skipn 2 frame))) 0))
           (seq 0 (Z.to_nat (Z.land (ord_func (nth 1 frame x00)) 127)))
       = map ord_func P.
Proof.
  intros Hlen.
  destruct (send_frame_sends P s r ltac:(lia)) as [frame [Hsend Hord]].
  exists frame. split; [exact Hsend |].
  rewrite frame_bytes_shape in Hord.
  assert (Hfield : Z.land (ord_func (nth 1 frame x00)) 127 = len P).
  { rewrite ord_nth, Hord. cbn [nth].
    rewrite length_field by (unfold len; lia).
    apply Z.mod_small. unfold len in *. lia. }
  split; [exact Hfield |].
  rewrite Hfield. unfold len at 1. rewrite Nat2Z.id.
  rewrite <- firstn_map, <- skipn_map, Hord.
  cbn [skipn firstn].
  rewrite <- (map_nth_seq ord_func x00 P).
  apply map_ext_in. intros i Hi. apply in_seq in Hi.
  rewrite ord_nth, Hord.
  change (nth (6 + i) (_ :: _ :: _ :: _ :: _ :: _ :: ?l) 0) with (nth i l 0).
  rewrite (nth_indep _ 0 (Z.lxor (ord_func (nth 0 P x00)) (nth (0 mod 4) mask 0)))
    by (rewrite length_map, length_seq; lia).
  rewrite (map_nth (fun i => Z.lxor (ord_func (nth i P x00)) (nth (i mod 4) mask 0))
                   (seq 0 (List.length P)) 0%nat i).
  rewrite seq_nth by lia. cbn [Nat.add].
  apply lxor_twice.
Qed.

Lemma send_frame_unmask_roundtrip_witness :
  exists frame : bytes,
    send_frame [x68; x65; x6c; x6c; x6f] (open_on (mkSocket [] []) [])
    = Returns tt (open_on (mkSocket [] ([] ++ [Sendall frame])) [])
    /\ Z.land (ord_func (nth 1 frame x00)) 127 = len [x68; x65; x6c; x6c; x6f]
    /\ map (fun i => Z.lxor (ord_func (nth (6 + i) frame x00))
                            (nth (i mod 4)
                                 (map ord_func (firstn 4 (skipn 2 frame))) 0))
           (seq 0 (Z.to_nat (Z.land (ord_func (nth 1 frame x00)) 127)))
       = map ord_func [x68; x65; x6c; x6c; x6f].
Proof.
  apply (send_frame_unmask_roundtrip [x68; x65; x6c; x6c; x6f] (mkSocket [] []) []).
  unfold len; simpl; lia.
Defined.

(** X2. [send_frame] has no guard on the payload size: every payload of at
    most 255 bytes is framed and sent as 6 + len(P) bytes, and its length
    field (low 7 bits of byte 1) is len(P) mod 128; a payload of 128..255
    bytes is therefore announced as len(P) - 128 bytes. *)
Theorem send_frame_length_field_wraps (P : bytes) (s : socket) (r : bytes) :
  len P <= 255 ->
  exists frame : bytes,
    send_frame P (open_on s r)
    = Returns tt (open_on (mkSocket (pending s) (calls s ++ [Sendall frame])) r)
    /\ len frame = 6 + len P
    /\ Z.land (ord_func (nth 1 frame x00)) 127 = len P mod 128
    /\ (128 <= len P -> Z.land (ord_func (nth 1 frame x00)) 127 = len P - 128).
Proof.
  intros Hlen.
  destruct (send_frame_sends P s r Hlen) as [frame [Hsend Hord]].
  exists frame. split; [exact Hsend |].
  rewrite frame_bytes_shape in Hord.
  assert (Hfield : Z.land (ord_func (nth 1 frame x00)) 127 = len P mod 128).
  { rewrite ord_nth, Hord. cbn [nth].
    apply length_field. unfold len; lia. }
  repeat split.
  - unfold len. rewrite <- (length_map ord_func frame), Hord.
    cbn [List.length]. rewrite length_map, length_seq. lia.
  - exact Hfield.
  - intros Hbig. rewrite Hfield.
    rewrite <- (Z.mod_small (len P - 128) 128) by lia.
    replace (len P) with (len P - 128 + 1 * 128) at 1 by lia.
    apply Z.mod_add. lia.
Qed.

Lemma send_frame_length_field_wraps_witness :
  exists frame : bytes,
    send_frame (repeat x41 130) (open_on (mkSocket [] []) [])
    = Returns tt (open_on (mkSocket [] ([] ++ [Sendall frame])) [])
    /\ len frame = 6 + len (repeat x41 130)
    /\ Z.land (ord_func (nth 1 frame x00)) 127 = len (repeat x41 130) mod 128
    /\ (128 <= len (repeat x41 130) ->
        Z.land (ord_func (nth 1 frame x00)) 127 = len (repeat x41 130) - 128).
Proof.
  apply (send_frame_length_field_wraps (repeat x41 130) (mkSocket [] []) []).
  unfold len. rewrite repeat_length. lia.
Defined.

(** X3. A payload of 256 bytes or more cannot be framed: [send_frame]
    raises [struct.error] before it touches the socket, whatever the state
    of the client, so nothing is sent. *)
Theorem send_frame_too_long_raises (P : bytes) (w : world) :
  256 <= len P ->
  send_frame P w = Raises struct_error w.
Proof.
  intros Hlen. unfold send_frame.
  assert (Hnone : struct_pack_B (frame_bytes P) = None).
  { rewrite frame_bytes_shape. cbn [struct_pack_B].
    assert (Hbig : 256 <= Z.lor (len P) 128).
    { assert (H0 : 0 <= Z.lor (len P) 128)
        by (apply Z.lor_nonneg; unfold len; lia).
      destruct (Z.lt_ge_cases (Z.lor (len P) 128) 256) as [Hlt | Hge];
        [| exact Hge].
      apply below_256_log2 in Hlt; [| exact H0].
      rewrite Z.log2_lor in Hlt by (unfold len; lia).
      assert (Hp : Z.log2 (len P) < 8) by lia.
      apply below_256_log2 in Hp; [lia | unfold len; lia]. }
    assert (Hp1 : pack_B1 (Z.lor (len P) 128) = None).
    { unfold pack_B1. destruct (Z.ltb_spec (Z.lor (len P) 128) 0); [reflexivity |].
      apply Byte.of_N_None_iff. lia. }
    rewrite Hp1. now destruct (pack_B1 130). }
  rewrite Hnone. reflexivity.
Qed.

Lemma send_frame_too_long_raises_witness :
  send_frame (repeat x00 300) (open_on (mkSocket [[x82]] []) [])
  = Raises struct_error (open_on (mkSocket [[x82]] []) []).
Proof.
  apply (send_frame_too_long_raises (repeat x00 300)).
  unfold len. rewrite repeat_length. lia.
Defined.

(** X4. After [close()] the client is unusable: [send_frame] (of a payload
    that can be framed) and [receive_frame] both raise [AttributeError] on
    the [None] reference and make no call on the socket. *)
Theorem methods_fail_after_close (P : bytes) (w : world) :
  len P <= 255 ->
  exists w1 : world,
    close w = Returns tt w1
    /\ send_frame P w1 = Raises AttributeError w1
    /\ receive_frame w1 = Raises AttributeError w1.
Proof.
  intros Hlen.
  assert (Hfail : forall w1, _socket (self w1) = None ->
            send_frame P w1 = Raises AttributeError w1
            /\ receive_frame w1 = Raises AttributeError w1).
  { intros w1 Hnone. split.
    - unfold send_frame.
      destruct (struct_pack_B_ord _ (frame_bytes_packable_255 P Hlen))
        as [frame [-> _]].
      unfold via_socket. now rewrite Hnone.
    - apply (receive_frame_unfold 1). cbn [receive_frame_loop].
      unfold via_socket. now rewrite Hnone. }
  unfold close. destruct (_socket (self w)) as [[] |] eqn:Hs.
  - eexists. split; [reflexivity |]. now apply Hfail.
  - exists w. split; [reflexivity |]. now apply Hfail.
Qed.

Lemma methods_fail_after_close_witness :
  exists w1 : world,
    close (open_on (mkSocket [[x82; x00]] []) []) = Returns tt w1
    /\ send_frame [x68; x69] w1 = Raises AttributeError w1
    /\ receive_frame w1 = Raises AttributeError w1.
Proof.
  apply (methods_fail_after_close [x68; x69]
           (open_on (mkSocket [[x82; x00]] []) [])).
  unfold len; simpl; lia.
Defined.

(** ** [receive_frame]: what it does to the socket and what it returns *)

Lemma gtb_true_pos (x : Z) : (x >? 0) = true -> 0 < x.
Proof. intros H. destruct (Z.gtb_spec x 0); [lia | discriminate]. Qed.

Lemma land_127_range (a : Z) : 0 <= Z.land a 127 <= 127.
Proof.
  assert (H : Z.land a 127 = a mod 128)
    by (change 127 with (Z.ones 7); now rewrite Z.land_ones by lia).
  rewrite H. pose proof (Z.mod_pos_bound a 128 ltac:(lia)). lia.
Qed.

Lemma receive_frame_loop_only_reads (n : nat) :
  forall (w : world) (o : outcome (option bytes)),
    receive_frame_loop n w = Some o ->
    self (world_of o) = self w /\
    exists reads,
      calls (sock (world_of o)) = calls (sock w) ++ reads /\
      forallb is_recv reads = true.
Proof.
  induction n as [| n IH]; intros w o Hrun; [discriminate |].
  cbn [receive_frame_loop] in Hrun.
  pose proof (recv_cases 2 w ltac:(lia)) as Hc.
  destruct (via_socket (socket_recv 2) w) as [header w1 | e w1 | w1].
  - destruct Hc as [c [rest [_ [_ [_ [Hcalls Hself]]]]]].
    assert (Hone : forall o' : outcome (option bytes), world_of o' = w1 ->
              self (world_of o') = self w /\
              exists reads,
                calls (sock (world_of o')) = calls (sock w) ++ reads /\
                forallb is_recv reads = true).
    { intros o' ->. split; [exact Hself |].
      exists [Recv 2 header]. now split. }
    destruct (len header =? 0).
    { injection Hrun as <-. now apply Hone. }
    destruct (getitem header 1) as [h1 |].
    2:{ injection Hrun as <-. now apply Hone. }
    destruct (Z.land (ord_func h1) 127 >? 0) eqn:HL.
    + apply gtb_true_pos in HL. injection Hrun as <-. unfold bind, ret.
      pose proof (recv_cases (Z.land (ord_func h1) 127) w1 ltac:(lia)) as Hc2.
      destruct (via_socket (socket_recv (Z.land (ord_func h1) 127)) w1)
        as [d w2 | e w2 | w2]; cbn [world_of].
      * destruct Hc2 as [c2 [rest2 [_ [_ [_ [Hcalls2 Hself2]]]]]].
        split; [congruence |].
        exists [Recv 2 header; Recv (Z.land (ord_func h1) 127) d].
        split; [| reflexivity].
        rewrite Hcalls2, Hcalls, <- app_assoc. reflexivity.
      * destruct Hc2 as [_ ->]. now apply (Hone (Blocks w1)).
      * destruct Hc2 as [-> _]. now apply (Hone (Blocks w1)).
    + apply IH in Hrun as [Hs [reads [Hreads Hall]]].
      split; [congruence |].
      exists (Recv 2 header :: reads). split; [| exact Hall].
      rewrite Hreads, Hcalls, <- app_assoc. reflexivity.
  - destruct Hc as [_ ->]. injection Hrun as <-.
    split; [reflexivity |]. exists []. now rewrite app_nil_r.
  - destruct Hc as [-> _]. injection Hrun as <-.
    split; [reflexivity |]. exists []. now rewrite app_nil_r.
Qed.

(** X5. However it ends (frame, sentinel, exception or blocking),
    [receive_frame] only reads: every call it makes on the socket is a
    [recv]; it never sends, shuts down or closes, and it leaves the
    attributes of the object ([_socket], [response]) as they were. *)
Theorem receive_frame_only_reads (w : world) :
  self (world_of (receive_frame w)) = self w /\
  exists reads : list call,
    calls (sock (world_of (receive_frame w))) = calls (sock w) ++ reads /\
    forallb is_recv reads = true.
Proof.
  unfold receive_frame.
  destruct (receive_frame_loop _ w) as [o |] eqn:Hloop.
  - exact (receive_frame_loop_only_reads _ _ _ Hloop).
  - split; [reflexivity |]. exists []. now rewrite app_nil_r.
Qed.

Lemma receive_frame_loop_returns (n : nat) :
  forall (w w' : world) (res : option bytes),
    receive_frame_loop n w = Some (Returns res w') ->
    match res with
    | None => exists pre, calls (sock w') = pre ++ [Recv 2 []]
    | Some d =>
        exists pre h0 h1,
          calls (sock w')
          = pre ++ [Recv 2 [h0; h1]; Recv (Z.land (ord_func h1) 127) d]
          /\ 0 < Z.land (ord_func h1) 127
          /\ len d <= Z.land (ord_func h1) 127 <= 127
    end.
Proof.
  induction n as [| n IH]; intros w w' res Hrun; [discriminate |].
  cbn [receive_frame_loop] in Hrun.
  pose proof (recv_cases 2 w ltac:(lia)) as Hc.
  destruct (via_socket (socket_recv 2) w) as [header w1 | e w1 | w1];
    try discriminate.
  destruct Hc as [c [rest [_ [Hhdr [_ [Hcalls _]]]]]].
  destruct (len header =? 0) eqn:Hlen.
  - injection Hrun as <- <-. exists (calls (sock w)).
    destruct header; [exact Hcalls |].
    unfold len in Hlen. cbn in Hlen. discriminate.
  - destruct (getitem header 1) as [h1 |] eqn:Hget; [| discriminate].
    assert (Hshape : exists h0, header = [h0; h1]).
    { assert (Hl2 : (List.length header <= 2)%nat)
        by (rewrite Hhdr, length_firstn; apply Nat.le_min_l).
      destruct header as [| h0 [| h1' [| ? ?]]]; try discriminate.
      - injection Hget as ->. now exists h0.
      - cbn in Hl2. lia. }
    destruct Hshape as [h0 ->].
    destruct (Z.land (ord_func h1) 127 >? 0) eqn:HL.
    + apply gtb_true_pos in HL. unfold bind, ret in Hrun.
      pose proof (recv_cases (Z.land (ord_func h1) 127) w1 ltac:(lia)) as Hc2.
      destruct (via_socket (socket_recv (Z.land (ord_func h1) 127)) w1)
        as [d w2 | e w2 | w2]; try discriminate.
      injection Hrun as <- <-.
      destruct Hc2 as [c2 [rest2 [_ [Hd [_ [Hcalls2 _]]]]]].
      exists (calls (sock w)), h0, h1. repeat split.
      * rewrite Hcalls2, Hcalls, <- app_assoc. reflexivity.
      * exact HL.
      * unfold len. rewrite Hd, length_firstn. lia.
      * apply land_127_range.
    + now apply (IH w1).
Qed.

(** X6. What a return value of [receive_frame] says about the socket:
    [None] is returned only right after a header read of zero bytes; a
    frame [d] is returned only right after a 2-byte header read followed by
    one read of L = header[1] & 127 > 0 bytes, and [d], the result of that
    read, has at most L bytes, hence never more than 127. *)
Theorem receive_frame_return_value (w w' : world) (res : option bytes) :
  receive_frame w = Returns res w' ->
  match res with
  | None => exists pre, calls (sock w') = pre ++ [Recv 2 []]
  | Some d =>
      exists pre h0 h1,
        calls (sock w')
        = pre ++ [Recv 2 [h0; h1]; Recv (Z.land (ord_func h1) 127) d]
        /\ 0 < Z.land (ord_func h1) 127
        /\ len d <= Z.land (ord_func h1) 127 <= 127
  end.
Proof.
  unfold receive_frame. intros Hrf.
  destruct (receive_frame_loop _ w) as [o |] eqn:Hloop; [| discriminate].
  subst o. exact (receive_frame_loop_returns _ _ _ _ Hloop).
Qed.

Lemma receive_frame_return_value_witness :
  exists pre h0 h1,
    calls (sock (open_on (mkSocket [[x64]]
                            [Recv 2 [x82; x00]; Recv 2 [x81; x83];
                             Recv 3 [x61; x62]]) []))
    = pre ++ [Recv 2 [h0; h1]; Recv (Z.land (ord_func h1) 127) [x61; x62]]
    /\ 0 < Z.land (ord_func h1) 127
    /\ len [x61; x62] <= Z.land (ord_func h1) 127 <= 127.
Proof.
  apply (receive_frame_return_value
           (open_on (mkSocket [[x82; x00]; [x81; x83]; [x61; x62]; [x64]] []) [])
           (open_on (mkSocket [[x64]]
                       [Recv 2 [x82; x00]; Recv 2 [x81; x83];
                        Recv 3 [x61; x62]]) [])
           (Some [x61; x62])).
  reflexivity.
Defined.

(** X7. A peer that closes between a header and its payload is not
    reported by the sentinel: after a header announcing L > 0 bytes, a read
    of zero bytes makes [receive_frame] return the empty byte string, not
    [None]. *)
Theorem receive_frame_close_after_header (zs : list bytes) (h0 h1 : byte)
        (rest : list bytes) (cs : list call) (r : bytes) :
  forallb empty_frame_header zs = true ->
  0 < Z.land (ord_func h1) 127 ->
  receive_frame (open_on (mkSocket (zs ++ [h0; h1] :: [] :: rest) cs) r)
  = Returns (Some [])
      (open_on (mkSocket rest
                  (cs ++ map (Recv 2) zs
                      ++ [Recv 2 [h0; h1];
                          Recv (Z.land (ord_func h1) 127) []])) r).
Proof.
  intros Hzs HL. apply (receive_frame_after_skip zs _ cs r); [exact Hzs |].
  rewrite (receive_frame_loop_payload h0 h1 [] rest _ r _ eq_refl HL).
  rewrite firstn_nil, skipn_nil. cbn [pushback]. now rewrite <- app_assoc.
Qed.

Lemma receive_frame_close_after_header_witness :
  receive_frame (open_on (mkSocket ([] ++ [x82; x05] :: [] :: []) []) [])
  = Returns (Some [])
      (open_on (mkSocket []
                  ([] ++ map (Recv 2) []
                      ++ [Recv 2 [x82; x05];
                          Recv (Z.land (ord_func x05) 127) []])) []).
Proof.
  apply (receive_frame_close_after_header [] x82 x05 [] [] []).
  - reflexivity.
  - reflexivity.
Defined.

(** X8. [receive_frame] has no timeout of its own: when the peer sends
    empty frames only and then stays silent without closing, every empty
    frame is consumed and the call blocks in the next header read. *)
Theorem receive_frame_blocks_on_silence (zs : list bytes) (cs : list call)
        (r : bytes) :
  forallb empty_frame_header zs = true ->
  receive_frame (open_on (mkSocket zs cs) r)
  = Blocks (open_on (mkSocket [] (cs ++ map (Recv 2) zs)) r).
Proof.
  intros Hzs. rewrite <- (app_nil_r zs) at 1.
  apply (receive_frame_after_skip zs [] cs r); [exact Hzs |].
  reflexivity.
Qed.

Lemma receive_frame_blocks_on_silence_witness :
  receive_frame (open_on (mkSocket [[x82; x00]; [x89; x80]] []) [])
  = Blocks (open_on (mkSocket []
                       ([] ++ map (Recv 2) [[x82; x00]; [x89; x80]])) []).
Proof.
  apply (receive_frame_blocks_on_silence [[x82; x00]; [x89; x80]] [] []).
  reflexivity.
Defined.

(** ** The constructor: blocking, over-reading, and what it keeps *)

Lemma delivers_bytes_cons (b : byte) (t : bytes) : delivers_bytes (b :: t) = true.
Proof.
  unfold delivers_bytes, len. apply Z.ltb_lt. cbn [List.length]. lia.
Qed.

Lemma delivers_bytes_pos (c : bytes) : delivers_bytes c = true -> 0 < len c.
Proof. unfold delivers_bytes. apply Z.ltb_lt. Qed.

Lemma pushback_delivers (x : bytes) (ps : list bytes) :
  forallb delivers_bytes ps = true ->
  forallb delivers_bytes (pushback x ps) = true.
Proof.
  intros Hps. destruct x as [| b t]; [exact Hps |].
  cbn [pushback forallb]. now rewrite delivers_bytes_cons.
Qed.

Lemma firstn_delivers (n : nat) (c : bytes) :
  (0 < n)%nat -> 0 < len c -> 0 < len (firstn n c).
Proof.
  unfold len. intros Hn Hc. rewrite length_firstn. lia.
Qed.

Lemma read_split (n : nat) (acc c : bytes) (ps : list bytes) :
  (acc ++ firstn n c) ++ List.concat (pushback (skipn n c) ps)
  = acc ++ List.concat (c :: ps).
Proof.
  rewrite pushback_concat. cbn [List.concat].
  rewrite <- app_assoc. f_equal. rewrite app_assoc. f_equal.
  apply firstn_skipn.
Qed.

Lemma _upgrade_loop_blocks (n : nat) :
  forall (ps : list bytes) (acc data : bytes) (cs : list call),
    forallb delivers_bytes ps = true ->
    0 < len data ->
    ~ occurs CRLFCRLF (acc ++ List.concat ps) ->
    (weight ps < n)%nat ->
    exists w' : world,
      _upgrade_loop n data (open_on (mkSocket ps cs) acc) = Some (Blocks w')
      /\ response (self w') = acc ++ List.concat ps
      /\ pending (sock w') = [].
Proof.
  induction n as [| n IH]; intros ps acc data cs Hps Hdata Hno Hw; [lia |].
  rewrite _upgrade_loop_S. cbn [open_on self response].
  rewrite (len_pos_gtb _ Hdata).
  assert (Habs : (find acc CRLFCRLF <? 0) = true).
  { apply find_ltb_absent. intros Hocc. apply Hno. now apply occurs_app_l. }
  rewrite Habs. cbn [andb].
  change {| sock := ?s; self := {| _socket := Some client_socket; response := ?r |} |}
    with (open_on s r).
  destruct ps as [| c ps].
  - eexists. split; [reflexivity |]. split; [| reflexivity].
    cbn. now rewrite app_nil_r.
  - cbn [forallb] in Hps. apply andb_prop in Hps as [Hc Hps].
    apply delivers_bytes_pos in Hc.
    rewrite recv_open by lia.
    unfold set_response at 1. cbn [sock self _socket response open_on].
    change {| sock := ?s; self := {| _socket := Some client_socket; response := ?r |} |}
      with (open_on s r).
    destruct (IH (pushback (skipn (Z.to_nat 4096) c) ps)
                 (acc ++ firstn (Z.to_nat 4096) c)
                 (firstn (Z.to_nat 4096) c)
                 (cs ++ [Recv 4096 (firstn (Z.to_nat 4096) c)]))
      as [w' [Hrun [Hresp Hpend]]].
    + now apply pushback_delivers.
    + apply firstn_delivers; [lia | exact Hc].
    + now rewrite read_split.
    + pose proof (pushback_weight (Z.to_nat 4096) c ps ltac:(lia)). lia.
    + exists w'. split; [exact Hrun |]. split; [| exact Hpend].
      now rewrite Hresp, read_split.
Qed.

(** X9. The constructor has no timeout: when the peer delivers bytes that
    never contain the terminator and then stays silent without closing,
    the constructor consumes everything delivered into [response] and
    blocks in the next read; it neither returns nor raises. *)
Theorem constructor_blocks_without_terminator (url : url_t)
        (ps : list bytes) (cs : list call) :
  forallb delivers_bytes ps = true ->
  ~ occurs CRLFCRLF (List.concat ps) ->
  exists w' : world,
    __init__ (mkSocket ps cs) url = Blocks w'
    /\ response (self w') = List.concat ps
    /\ pending (sock w') = [].
Proof.
  intros Hps Hno. destruct ps as [| c ps].
  - eexists. split; [reflexivity |]. now split.
  - cbn [forallb] in Hps. apply andb_prop in Hps as [Hc Hps].
    apply delivers_bytes_pos in Hc.
    rewrite __init___first_read.
    destruct (_upgrade_loop_blocks
                (S (weight (pushback (skipn (Z.to_nat 4096) c) ps)))
                (pushback (skipn (Z.to_nat 4096) c) ps)
                (firstn (Z.to_nat 4096) c) (firstn (Z.to_nat 4096) c)
                (cs ++ [Sendall (encode_utf8 (reqdata url));
                        Recv 4096 (firstn (Z.to_nat 4096) c)]))
      as [w' [Hrun [Hresp Hpend]]].
    + now apply pushback_delivers.
    + apply firstn_delivers; [lia | exact Hc].
    + rewrite <- (app_nil_l (firstn _ c)), read_split. exact Hno.
    + lia.
    + exists w'. split; [| split; [| exact Hpend]].
      * now apply (_upgrade_while_unfold _ _ _ _ Hrun).
      * rewrite Hresp. rewrite <- (app_nil_l (firstn _ c)), read_split.
        reflexivity.
Qed.

Lemma constructor_blocks_without_terminator_witness :
  exists w' : world,
    __init__ (mkSocket truncated_chunks []) console_url = Blocks w'
    /\ response (self w') = List.concat truncated_chunks
    /\ pending (sock w') = [].
Proof.
  apply (constructor_blocks_without_terminator console_url truncated_chunks []).
  - reflexivity.
  - apply find_absent. reflexivity.
Defined.

(** X10. The handshake reads whole deliveries: when the delivery that
    completes the terminator also carries bytes behind it (the first frames
    of the server), those bytes end up in [response] and are no longer
    pending, so no later [receive_frame] sees them. *)
Theorem constructor_swallows_trailing_bytes (url : url_t)
        (head tail : bytes) (rest : list bytes) (cs : list call) :
  len (head ++ CRLFCRLF ++ tail) <= 4096 ->
  __init__ (mkSocket ((head ++ CRLFCRLF ++ tail) :: rest) cs) url
  = Returns tt
      (open_on (mkSocket rest
                  (cs ++ [Sendall (encode_utf8 (reqdata url));
                          Recv 4096 (head ++ CRLFCRLF ++ tail)]))
               (head ++ CRLFCRLF ++ tail)).
Proof.
  intros Hlen. rewrite __init___first_read.
  unfold len in Hlen. rewrite firstn_all2, skipn_all2 by lia.
  cbn [pushback]. apply (_upgrade_while_unfold 1).
  rewrite _upgrade_loop_S. cbn [open_on self response].
  rewrite (find_ltb_present (head ++ CRLFCRLF ++ tail) CRLFCRLF)
    by (now exists head, tail).
  now rewrite andb_false_r.
Qed.

Lemma constructor_swallows_trailing_bytes_witness :
  __init__
    (mkSocket ((list_byte_of_string "HTTP/1.1 101 OK" ++ CRLFCRLF
                  ++ [x82; x02; x68; x69]) :: [[x82; x01; x21]]) [])
    console_url
  = Returns tt
      (open_on (mkSocket [[x82; x01; x21]]
                  ([] ++ [Sendall (encode_utf8 (reqdata console_url));
                          Recv 4096 (list_byte_of_string "HTTP/1.1 101 OK"
                                       ++ CRLFCRLF ++ [x82; x02; x68; x69])]))
               (list_byte_of_string "HTTP/1.1 101 OK" ++ CRLFCRLF
                  ++ [x82; x02; x68; x69])).
Proof.
  apply (constructor_swallows_trailing_bytes console_url
           (list_byte_of_string "HTTP/1.1 101 OK") [x82; x02; x68; x69]
           [[x82; x01; x21]] []).
  vm_compute. discriminate.
Defined.

Lemma _upgrade_loop_conserves (n : nat) :
  forall (ps : list bytes) (acc data : bytes) (cs : list call)
         (o : outcome unit),
    _upgrade_loop n data (open_on (mkSocket ps cs) acc) = Some o ->
    _socket (self (world_of o)) = Some client_socket /\
    response (self (world_of o)) ++ List.concat (pending (sock (world_of o)))
    = acc ++ List.concat ps.
Proof.
  induction n as [| n IH]; intros ps acc data cs o Hrun; [discriminate |].
  rewrite _upgrade_loop_S in Hrun. cbn [open_on self response] in Hrun.
  destruct ((len data >? 0) && (find acc CRLFCRLF <? 0)).
  - change {| sock := ?s; self := {| _socket := Some client_socket; response := ?r |} |}
      with (open_on s r) in Hrun.
    destruct ps as [| c ps].
    + injection Hrun as <-. now split.
    + rewrite recv_open in Hrun by lia.
      unfold set_response at 1 in Hrun.
      cbn [sock self _socket response open_on] in Hrun.
      change {| sock := ?s; self := {| _socket := Some client_socket; response := ?r |} |}
        with (open_on s r) in Hrun.
      apply IH in Hrun. rewrite read_split in Hrun. exact Hrun.
  - injection Hrun as <-. now split.
Qed.

(** X11. Whatever the peer delivers and however it is cut into reads, in
    the state the constructor leaves behind (on return, or where it is
    blocked) the client holds its socket, and [response] followed by what
    is still pending is exactly what the peer delivered: the handshake
    loses and reorders nothing. *)
Theorem constructor_conserves_stream (s : socket) (url : url_t) :
  _socket (self (world_of (__init__ s url))) = Some client_socket /\
  response (self (world_of (__init__ s url)))
  ++ List.concat (pending (sock (world_of (__init__ s url))))
  = List.concat (pending s).
Proof.
  destruct s as [[| c ps] cs].
  - cbn. now split.
  - rewrite __init___first_read. unfold _upgrade_while.
    destruct (_upgrade_loop _ _ _) as [o |] eqn:Hloop.
    + apply _upgrade_loop_conserves in Hloop.
      rewrite <- (app_nil_l (firstn _ c)), read_split in Hloop.
      exact Hloop.
    + split; [reflexivity |].
      cbn [world_of open_on self response sock pending].
      rewrite <- (app_nil_l (firstn _ c)), read_split. reflexivity.
Qed.

(** ** [send_frame] and [receive_frame] together *)

(** A header and what follows it arriving in one delivery. *)
Lemma receive_frame_loop_coalesced (h0 h1 t0 : byte) (tl : bytes)
      (rest : list bytes) (cs : list call) (r : bytes) (L : Z) :
  Z.land (ord_func h1) 127 = L -> 0 < L ->
  receive_frame_loop 1
    (open_on (mkSocket ((h0 :: h1 :: t0 :: tl) :: rest) cs) r)
  = Some (Returns (Some (firstn (Z.to_nat L) (t0 :: tl)))
            (open_on (mkSocket (pushback (skipn (Z.to_nat L) (t0 :: tl)) rest)
                       (cs ++ [Recv 2 [h0; h1];
                               Recv L (firstn (Z.to_nat L) (t0 :: tl))])) r)).
Proof.
  intros HL Hpos. cbn [receive_frame_loop].
  rewrite recv_open by lia.
  change (Z.to_nat 2) with 2%nat. cbn [firstn skipn pushback].
  cbn [len List.length getitem nth_error].
  change (Z.of_nat 2 =? 0) with false. cbv iota.
  rewrite HL. destruct (Z.gtb_spec L 0) as [_ | Hle]; [| lia].
  unfold bind. rewrite recv_open by lia. unfold ret.
  now rewrite <- app_assoc.
Qed.

(** X12. The two directions are not symmetric: [receive_frame] does not
    unmask. Fed the frame that [send_frame] writes for a payload P of 1 to
    125 bytes, it returns the len(P) bytes that follow the 2-byte header,
    that is the first len(P) bytes of the mask key 7, 2, 1, 9 followed by
    the masked payload (for a payload shorter than 4 bytes, a prefix of the
    key and nothing of the payload), and it leaves the last 4 bytes of the
    frame pending, where the next call will take them for a header. *)
Theorem receive_frame_of_sent_frame (P : bytes) (s : socket) (r : bytes)
        (rest : list bytes) (cs : list call) (r' : bytes) :
  1 <= len P <= 125 ->
  exists frame : bytes,
    send_frame P (open_on s r)
    = Returns tt (open_on (mkSocket (pending s) (calls s ++ [Sendall frame])) r)
    /\ receive_frame (open_on (mkSocket (frame :: rest) cs) r')
       = Returns (Some (firstn (List.length P) (skipn 2 frame)))
           (open_on
              (mkSocket (skipn (List.length P) (skipn 2 frame) :: rest)
                 (cs ++ [Recv 2 (firstn 2 frame);
                         Recv (len P)
                              (firstn (List.length P) (skipn 2 frame))])) r')
    /\ map ord_func (firstn (List.length P) (skipn 2 frame))
       = firstn (List.length P)
           ([7; 2; 1; 9]
            ++ map (fun i => Z.lxor (ord_func (nth i P x00))
                                    (nth (i mod 4) [7; 2; 1; 9] 0))
                   (seq 0 (List.length P)))
    /\ len (skipn (List.length P) (skipn 2 frame)) = 4.
Proof.
  intros [Hlo Hhi].
  destruct (send_frame_sends P s r ltac:(lia)) as [frame [Hsend Hord]].
  exists frame. split; [exact Hsend |].
  rewrite frame_bytes_shape in Hord.
  assert (Hlen : List.length frame = (6 + List.length P)%nat).
  { rewrite <- (length_map ord_func frame), Hord.
    cbn [List.length]. rewrite length_map, length_seq. lia. }
  destruct frame as [| h0 [| h1 [| t0 tl]]]; try (cbn in Hlen; lia).
  assert (Hfield : Z.land (ord_func h1) 127 = len P).
  { injection Hord as _ -> _. rewrite length_field by (unfold len; lia).
    apply Z.mod_small. unfold len in *. lia. }
  cbn [skipn firstn] in *.
  assert (Hrest : List.length (skipn (List.length P) (t0 :: tl)) = 4%nat).
  { rewrite length_skipn. cbn [List.length] in *. lia. }
  repeat split.
  - apply (receive_frame_unfold 1).
    refine (eq_trans
              (receive_frame_loop_coalesced h0 h1 t0 tl rest cs r' _ Hfield
                 ltac:(lia)) _).
    replace (Z.to_nat (len P)) with (List.length P)
      by (unfold len; now rewrite Nat2Z.id).
    destruct (skipn (List.length P) (t0 :: tl)) as [| x xs] eqn:Hsk;
      [discriminate Hrest |].
    reflexivity.
  - rewrite <- firstn_map. f_equal.
    change (map ord_func (h0 :: h1 :: t0 :: tl))
      with (ord_func h0 :: ord_func h1 :: map ord_func (t0 :: tl)) in Hord.
    apply (f_equal (@skipn Z 2)) in Hord. exact Hord.
  - unfold len. now rewrite Hrest.
Qed.

Lemma receive_frame_of_sent_frame_witness :
  exists frame : bytes,
    send_frame [x41] (open_on (mkSocket [] []) [])
    = Returns tt (open_on (mkSocket [] ([] ++ [Sendall frame])) [])
    /\ receive_frame (open_on (mkSocket (frame :: []) []) [])
       = Returns (Some (firstn 1 (skipn 2 frame)))
           (open_on
              (mkSocket (skipn 1 (skipn 2 frame) :: [])
                 ([] ++ [Recv 2 (firstn 2 frame);
                         Recv (len [x41]) (firstn 1 (skipn 2 frame))])) [])
    /\ map ord_func (firstn 1 (skipn 2 frame))
       = firstn 1
           ([7; 2; 1; 9]
            ++ map (fun i => Z.lxor (ord_func (nth i [x41] x00))
                                    (nth (i mod 4) [7; 2; 1; 9] 0))
                   (seq 0 1))
    /\ len (skipn 1 (skipn 2 frame)) = 4.
Proof.
  apply (receive_frame_of_sent_frame [x41] (mkSocket [] []) [] [] [] []).
  unfold len; simpl; lia.
Defined.

(** A one-byte payload: the frame is 82 81 07 02 01 09 46, and what comes
    back is the first byte of the key. *)
Example receive_frame_one_byte_frame :
  receive_frame
    (open_on (mkSocket [[x82; x81; x07; x02; x01; x09; x46]] []) [])
  = Returns (Some [x07])
      (open_on (mkSocket [[x02; x01; x09; x46]]
                  [Recv 2 [x82; x81]; Recv 1 [x07]]) []).
Proof. reflexivity. Qed.

Example receive_frame_hello_frame :
  receive_frame
    (open_on (mkSocket [[x82; x85; x07; x02; x01; x09;
                         x6f; x67; x6d; x65; x68]] []) [])
  = Returns (Some [x07; x02; x01; x09; x6f])
      (open_on (mkSocket [[x67; x6d; x65; x68]]
                  [Recv 2 [x82; x85]; Recv 5 [x07; x02; x01; x09; x6f]]) []).
Proof. reflexivity. Qed.

(** * [shelve_server] *)

Lemma geb_0_ltb (t : Z) : (t >=? 0) = negb (t <? 0).
Proof. rewrite Z.geb_leb, Z.ltb_antisym. now rewrite negb_involutive. Qed.

Ltac shelve_cases t force s :=
  let fs := fresh "fs" in
  let rq := fresh "rq" in
  let Hg := fresh "Hg" in
  rewrite ?geb_0_ltb; unfold shelve_server; rewrite ?geb_0_ltb;
  unfold and_then, perform, no_fault;
  destruct s as [fs rq]; destruct (t <? 0) eqn:Hg; destruct force;
  destruct fs as [| [?|] [| [?|] [| [?|] [| [?|] ?]]]];
  cbn [negb andb orb faults requests service_of nth_error].

(** X13. [shelve_offload_server] is requested exactly when the
    configured offload time is negative, [force_shelve_offload] is set, and
    neither the shelve request nor the wait for SHELVED raised; in
    particular never with a non-negative offload time, whatever the flag. *)
Theorem shelve_server_offload_request (t : Z) (server_id : string)
        (force : bool) (s : service) :
  exists new : list request,
    requests (service_of (shelve_server t server_id force s))
    = requests s ++ new
    /\ existsb is_shelve_offload new
       = (t <? 0) && force && no_fault 0 s && no_fault 1 s.
Proof.
  shelve_cases t force s;
    (eexists; split; [rewrite <- ?app_assoc; reflexivity | reflexivity]).
Qed.

(** X14. When [shelve_server] returns normally, the last thing it did was
    a completed wait for the final status of the server: SHELVED_OFFLOADED
    when the offload time is non-negative (with that time as extra timeout)
    or when [force_shelve_offload] is set, SHELVED otherwise. *)
Theorem shelve_server_done_after_final_wait (t : Z) (server_id : string)
        (force : bool) (s s' : service) :
  shelve_server t server_id force s = Done tt s' ->
  exists pre : list request,
    requests s'
    = pre ++ [wait_for_server_status server_id
                (if negb (t <? 0) || force then "SHELVED_OFFLOADED"
                 else "SHELVED")
                (if t <? 0 then None else Some t)].
Proof.
  shelve_cases t force s; intros Hdone;
    try discriminate Hdone; injection Hdone as <-;
    cbn [requests]; eexists; reflexivity.
Qed.

Lemma shelve_server_done_after_final_wait_witness :
  exists pre : list request,
    requests
      (mkService []
         [client_shelve_server "srv";
          wait_for_server_status "srv" "SHELVED" None;
          client_shelve_offload_server "srv";
          wait_for_server_status "srv" "SHELVED_OFFLOADED" None])
    = pre ++ [wait_for_server_status "srv"
                (if negb (-1 <? 0) || true then "SHELVED_OFFLOADED"
                 else "SHELVED")
                (if -1 <? 0 then None else Some (-1))].
Proof.
  apply (shelve_server_done_after_final_wait (-1) "srv" true
           (mkService [None; None] [])).
  reflexivity.
Defined.

(** X15. [shelve_server] makes its requests one at a time, the shelve
    request first, and stops at the first one that raises: every request
    before the last one made completed, each request used up one entry of
    the fault script, and the function fails exactly when the last request
    made raised, with that exception. *)
Theorem shelve_server_stops_at_first_failure (t : Z) (server_id : string)
        (force : bool) (s : service) :
  exists new : list request,
    requests (service_of (shelve_server t server_id force s))
    = requests s ++ new
    /\ hd_error new = Some (client_shelve_server server_id)
    /\ faults (service_of (shelve_server t server_id force s))
       = skipn (List.length new) (faults s)
    /\ forallb (fun k => no_fault k s) (seq 0 (List.length new - 1)) = true
    /\ match shelve_server t server_id force s with
       | Failed e _ =>
           nth_error (faults s) (List.length new - 1) = Some (Some e)
       | Done _ _ => no_fault (List.length new - 1) s = true
       end.
Proof.
  shelve_cases t force s;
    (eexists; split; [rewrite <- ?app_assoc; reflexivity |];
     repeat split).
Qed.

Example shelve_server_wait_fails :
  shelve_server (-1) "srv" true (mkService [None; Some "TimeoutException"%string] [])
  = Failed "TimeoutException"
      (mkService []
         [client_shelve_server "srv";
          wait_for_server_status "srv" "SHELVED" None]).
Proof. reflexivity. Qed.
